(** * pitemp: a DHT22 poller that publishes readings to Elasticsearch

    A shallow embedding of [pitemp.py].  The program talks to its
    surroundings (logging, the clock, the sensor driver, the Elasticsearch
    client) and its main loop has no exit, so every function is an
    interaction tree over the events of [ioE]; the environment variables
    are an explicit argument of [get_config].

    What the interpreter and the libraries decide from the arguments alone
    is modelled: [int()] failing with [ValueError], a local read before it
    is bound, [time.sleep] refusing a length, the client's constructor
    refusing a host string, an uncaught exception ending the process with
    status 1.

    A run lists the calls that were answered, each with its answer, and a
    call into the sensor driver or the store may be answered by anything
    of its type.  Such a call can also die of an exception of its library
    (a GPIO error, a refused connection); that exception passes through
    the program, which catches none, and is no part of the model: an
    outcome [Raised] is an exception that the arguments alone decide, and
    where a function is said not to raise, that is said of its own code.
    What is stated of every run holds up to any point of it, so that a
    run cut short from outside does not break it; what is stated to
    happen next is stated given the answers that the run lists. *)

From stdpp Require Import base gmap strings list.
From ITree Require Import ITree ITreeFacts.
From Stdlib Require Import ZArith Lia PrimFloat DecimalString.
From Stdlib Require Uint63 FloatOps.

Set Warnings "-register-all,-inexact-float".

Local Open Scope Z_scope.

(** Monadic bind of interaction trees ([ITreeNotations] and stdpp both
    claim [;;]). *)
Notation "'let*' x ':=' t 'in' k" := (ITree.bind t (fun x => k))
  (at level 10, x pattern, t at level 200, k at level 200, only parsing).

(** ** Python values *)

(** [float] is an IEEE 754 binary64 number, as in CPython. *)
Definition float : Type := PrimFloat.float.
Bind Scope float_scope with float.

(** A naive [datetime.datetime]. *)
Record datetime : Type := mk_datetime {
  year : Z; month : Z; day : Z;
  hour : Z; minute : Z; second : Z; microsecond : Z
}.

(** The values that travel through the program: arguments of [str.format],
    members of the documents sent to and of the answers received from the
    store. *)
Inductive pyval : Type :=
| VNone
| VInt (z : Z)
| VFloat (f : float)
| VStr (s : string)
| VDatetime (d : datetime)
| VDict (d : gmap string pyval).

(** The sensor tuple holds the literal [0] or a float of the driver. *)
Inductive number : Type :=
| Int (z : Z)
| Float (f : float).

Inductive exn : Type :=
| ValueError
| OverflowError
| OSError
| UnboundLocalError
| AttributeError.

(** What the interpreter and the libraries decide.  [int s] is [int(s)]
    on a [str], [None] standing for [ValueError]; the accepted syntax
    (blanks, sign, underscores, Unicode digits, the digit limit) is
    CPython's, and the program only relies on the empty string being
    rejected.  [float_of_int] is [float(z)].  [time_max] is the longest
    time, in seconds, that the interpreter's clock type holds, and
    [sleep_max] the longest sleep the platform takes, fixed for the time
    of a run.  [client_error] is what [Elasticsearch(hosts=...)] raises on
    a list of host strings it cannot parse, [None] where it builds the
    client. *)
Class Builtins : Type := {
  int : string -> option Z;
  int_empty : int "" = None;
  float_of_int : Z -> float;
  time_max : Z;
  sleep_max : Z;
  sleep_max_fits : sleep_max <= time_max;
  client_error : list string -> option exn
}.

(** [str(z)] *)
Definition str_of_int (z : Z) : string := NilZero.string_of_int (Z.to_int z).

(** Sensor identifiers of the driver package. *)
Module Adafruit_DHT.
Definition DHT11 : Z := 11.
Definition DHT22 : Z := 22.
Definition AM2302 : Z := 22.
End Adafruit_DHT.

(** ** Data model *)

Record AppConfig : Type := mk_AppConfig {
  es_host : string;
  es_port : Z;
  es_index : string;
  doc_tag : string;
  pub_intvl : Z;
  gpio_pin : Z;
  sensor : Z
}.

(** [SensorReading] is a pydantic model: [hum_rh] and [temp_c] are
    validated to floats, [timestamp] defaults to [None]. *)
Record SensorReading : Type := mk_SensorReading {
  hum_rh : float;
  temp_c : float;
  timestamp : option datetime;
  location : string
}.

(** pydantic's float validation: a float is kept, an int goes through
    [float()]. *)
Definition validate_float `{Builtins} (v : number) : float :=
  match v with
  | Float f => f
  | Int z => float_of_int z
  end.

(** [SensorReading.dict()] *)
Definition dict (r : SensorReading) : gmap string pyval :=
  <["hum_rh" := VFloat (hum_rh r)]>
  (<["temp_c" := VFloat (temp_c r)]>
  (<["timestamp" := from_option VDatetime VNone (timestamp r)]>
  (<["location" := VStr (location r)]> ∅))).

Definition SENSOR : Z := Adafruit_DHT.DHT22.

(** The Elasticsearch client object; building it opens no connection. *)
Record Elasticsearch : Type := mk_Elasticsearch { hosts : list string }.

(** ** Events *)

Inductive level : Type := DEBUG | INFO | ERROR.


(** The calls that reach outside the program.  [Log lvl fmt args] is a
    [logging] call whose message is [fmt.format( *args)]; [Raise] is an
    exception that nothing catches, so it has no answer. *)
Variant ioE : Type -> Type :=
| Log (lvl : level) (fmt : string) (args : list pyval) : ioE unit
| Raise (e : exn) : ioE Empty_set
| Sleep (secs : Z) : ioE unit
| ReadRetry (sensor pin : Z) : ioE (option float * option float)
| Now : ioE datetime
| IndicesCreate (es : Elasticsearch) (index : string) (ignore : Z) : ioE unit
| Index (es : Elasticsearch) (index doc_type : string)
        (body : gmap string pyval) : ioE (gmap string pyval).

Definition raise {R} (e : exn) : itree ioE R :=
  Vis (Raise e) (fun v : Empty_set => match v with end).

Definition logging_debug (fmt : string) (args : list pyval) : itree ioE unit :=
  ITree.trigger (Log DEBUG fmt args).
Definition logging_info (fmt : string) (args : list pyval) : itree ioE unit :=
  ITree.trigger (Log INFO fmt args).
Definition logging_error (fmt : string) (args : list pyval) : itree ioE unit :=
  ITree.trigger (Log ERROR fmt args).
(** [logging.exception] logs at level ERROR, with the traceback. *)
Definition logging_exception (fmt : string) (args : list pyval) : itree ioE unit :=
  ITree.trigger (Log ERROR fmt args).

(** Reading a local variable: one that no assignment has bound yet raises
    [UnboundLocalError]. *)
Definition load_local {A} (v : option A) : itree ioE A :=
  match v with
  | Some a => Ret a
  | None => raise UnboundLocalError
  end.

(** [time.sleep(secs)] for an int.  CPython first converts the length to
    its clock type, an [OverflowError] where it does not fit, whatever the
    sign; then a negative length is a [ValueError]; then the platform
    sleeps, or refuses with [OSError] a length it cannot schedule. *)
Definition time_sleep `{Builtins} (secs : Z) : itree ioE unit :=
  if (secs <? - time_max) || (time_max <? secs) then raise OverflowError
  else if secs <? 0 then raise ValueError
  else if sleep_max <? secs then raise OSError
  else ITree.trigger (Sleep secs).

(** [Elasticsearch(hosts=hosts)] *)
Definition new_Elasticsearch `{Builtins} (hosts : list string)
  : itree ioE Elasticsearch :=
  match client_error hosts with
  | Some x => raise x
  | None => Ret {| hosts := hosts |}
  end.

(** [os.environ.get(k, d)] *)
Definition environ_get (environ : gmap string string) (k d : string) : string :=
  default d (environ !! k).

Section Program.
Context `{Builtins}.

(** ** [read_sensor] *)

Definition read_sensor (sensor gpio_pin : Z)
  : itree ioE (Z * number * number * datetime) :=
  let* _ := logging_debug "reading sensor" [] in
  let* (hum_rh, temp_c) := ITree.trigger (ReadRetry sensor gpio_pin) in
  match hum_rh, temp_c with
  | Some h, Some t =>
      let* _ := logging_debug "sensor data: RH: {}, Tc: {}" [VFloat h; VFloat t] in
      let* now := ITree.trigger Now in
      Ret (0, Float h, Float t, now)
  | _, _ =>
      let* _ := logging_error "failed to read from the sensor" [] in
      let* now := ITree.trigger Now in
      Ret (1, Int 0, Int 0, now)
  end.

(** ** [publish_data] *)

(** [result.get("result", "") != "created"] *)
Definition not_created (result : gmap string pyval) : bool :=
  match default (VStr "") (result !! "result") with
  | VStr s => negb (String.eqb s "created")
  | _ => true
  end.

Definition publish_data (es : Elasticsearch) (doc_index : string)
    (sensor_data : SensorReading) : itree ioE Z :=
  let* result := ITree.trigger (Index es doc_index "sensor_data" (dict sensor_data)) in
  if not_created result then
    let* _ := logging_error "publishing error: result: {}" [VDict result] in
    Ret 1
  else Ret 0.

(** ** [get_config] *)

Definition get_config (environ : gmap string string)
  : itree ioE (Z * option AppConfig) :=
  let es_host := environ_get environ "ES_HOST" "" in
  if String.eqb es_host "" then
    let* _ := logging_error "empty env value for ES Host" [] in
    Ret (1, None)
  else
  let es_port_str := environ_get environ "ES_PORT" "" in
  if String.eqb es_port_str "" then
    let* _ := logging_error "empty env value for ES PORT" [] in
    Ret (1, None)
  else
  match int es_port_str with
  | None =>
      (* the handler formats [es_port], which the failed assignment left
         unbound *)
      let* es_port := load_local (@None Z) in
      let* _ := logging_exception
                  "failed to convert es_port env var into int: {}" [VInt es_port] in
      Ret (1, None)
  | Some es_port =>
  let es_index := environ_get environ "ES_INDEX" "" in
  if String.eqb es_index "" then
    let* _ := logging_error "empty env value for ES INDEX" [] in
    Ret (1, None)
  else
  let doc_tag := environ_get environ "DOC_TAG" "" in
  if String.eqb doc_tag "" then
    let* _ := logging_error "empty evn value for DOC_TAG" [] in
    Ret (1, None)
  else
  let interval_str := environ_get environ "PUB_INTVL" "" in
  if String.eqb doc_tag "" then
    let* _ := logging_error "empty env value for PUB_INTVL" [] in
    Ret (1, None)
  else
  match int interval_str with
  | None =>
      let* _ := logging_exception "invalid value for PUB_INTVL: {}" [VStr interval_str] in
      Ret (1, None)
  | Some interval =>
  let gpio_pin_str := environ_get environ "GPIO_PIN" "" in
  if String.eqb gpio_pin_str "" then
    let* _ := logging_error "empty env value for GPIO_PIN" [] in
    Ret (1, None)
  else
  match int gpio_pin_str with
  | None =>
      let* _ := logging_exception
                  "failed to convert gpio pin env var to int: {}" [VStr gpio_pin_str] in
      Ret (1, None)
  | Some gpio_pin =>
  let app_cfg := {| es_host := es_host;
                    es_port := es_port;
                    es_index := es_index;
                    doc_tag := doc_tag;
                    pub_intvl := interval;
                    gpio_pin := gpio_pin;
                    sensor := SENSOR |} in
  Ret (0, Some app_cfg)
  end end end.

(** ** [run] *)

(** One pass through the body of [while True].  The value is the reading
    the pass bound to [sensor_data], [None] when it left through
    [continue]; the loop drops it. *)
Definition iteration (config : AppConfig) (es : Elasticsearch)
  : itree ioE (option SensorReading) :=
  let* _ := time_sleep (pub_intvl config) in
  let* (rc, hum_rh, temp_c, ts) := read_sensor (sensor config) (gpio_pin config) in
  if negb (rc =? 0) then
    let* _ := logging_error "failed to read from sensor" [] in
    Ret None
  else
    let sensor_data := {| hum_rh := validate_float hum_rh;
                          temp_c := validate_float temp_c;
                          timestamp := Some ts;
                          location := doc_tag config |} in
    let* _ := publish_data es (es_index config) sensor_data in
    Ret (Some sensor_data).

(** The client [run] works with, once the constructor has built it. *)
Definition connect (config : AppConfig) : Elasticsearch :=
  {| hosts := [es_host config +:+ ":" +:+ str_of_int (es_port config)] |}.

Definition run (config : AppConfig) : itree ioE Z :=
  let* _ := logging_info "starting" [] in
  let* es := new_Elasticsearch
               [es_host config +:+ ":" +:+ str_of_int (es_port config)] in
  let* _ := ITree.trigger (IndicesCreate es (es_index config) 400) in
  let* _ := (ITree.forever (iteration config es) : itree ioE unit) in
  Ret 0.

(** ** Entry point *)

(** The value of [main] is the argument of [sys.exit]. *)
Definition main (environ : gmap string string) : itree ioE Z :=
  let* (rc, app_cfg) := get_config environ in
  if negb (rc =? 0) then
    let* _ := logging_error "failed to get config" [] in
    Ret 1
  else
    match app_cfg with
    | Some config => run config
    | None =>
        (* [run(None)] logs, then fails on [config.es_host] *)
        let* _ := logging_info "starting" [] in
        raise AttributeError
    end.

End Program.

(** ** Runs

    A run of a program is the list of the calls it made, each with the
    answer it got, and where the program stands after them. *)

Inductive event : Type :=
| ELog (lvl : level) (fmt : string) (args : list pyval)
| ESleep (secs : Z)
| ERead (sensor pin : Z) (reply : option float * option float)
| ENow (now : datetime)
| ECreate (es : Elasticsearch) (index : string) (ignore : Z)
| EIndex (es : Elasticsearch) (index doc_type : string)
         (body reply : gmap string pyval).

Definition observed {X} (e : ioE X) : X -> event :=
  match e in ioE X return X -> event with
  | Log lvl fmt args => fun _ => ELog lvl fmt args
  | Raise _ => fun v => match v with end
  | Sleep secs => fun _ => ESleep secs
  | ReadRetry sensor pin => fun reply => ERead sensor pin reply
  | Now => fun now => ENow now
  | IndicesCreate es index ignore => fun _ => ECreate es index ignore
  | Index es index doc_type body => fun reply => EIndex es index doc_type body reply
  end.

Definition raised {X} (e : ioE X) : option exn :=
  match e with
  | Raise x => Some x
  | _ => None
  end.

Inductive outcome (R : Type) : Type :=
| Returned (r : R)
| Raised (e : exn)
| Running.
Arguments Returned {R} r.
Arguments Raised {R} e.
Arguments Running {R}.

(** [exec t tr o]: [t] makes the calls [tr] and then has returned, has
    died of an exception, or is still running. *)
Inductive exec {R : Type} : itree ioE R -> list event -> outcome R -> Prop :=
| exec_running t :
    exec t [] Running
| exec_ret t r :
    observe t = RetF r -> exec t [] (Returned r)
| exec_raise t X (e : ioE X) k x :
    observe t = VisF e k -> raised e = Some x -> exec t [] (Raised x)
| exec_tau t u tr o :
    observe t = TauF u -> exec u tr o -> exec t tr o
| exec_vis t X (e : ioE X) k x tr o :
    observe t = VisF e k -> exec (k x) tr o -> exec t (observed e x :: tr) o.

(** The runs of a loop: passes that return, then one that is under way or
    raises. *)
Inductive exec_loop {R S : Type} (body : itree ioE R)
  : list event -> outcome S -> Prop :=
| loop_running tr :
    exec body tr Running -> exec_loop body tr Running
| loop_raise tr x :
    exec body tr (Raised x) -> exec_loop body tr (Raised x)
| loop_next tr1 r tr2 o :
    exec body tr1 (Returned r) -> exec_loop body tr2 o ->
    exec_loop body (tr1 ++ tr2) o.

(** ** Notions the statements use *)

(** *** Runs of a straight-line program

    Where a program goes through the calls [full] and ends in [res], its
    runs are that one, and every prefix of [full] with the program still
    running. *)

Definition cut_of {R} (full : list event) (res : outcome R)
    (tr : list event) (o : outcome R) : Prop :=
  (tr = full /\ o = res) \/ (tr `prefix_of` full /\ o = Running).

(** What a loop is doing does not depend on the type of the value it
    never returns. *)
Definition same_stop {S1 S2} (o1 : outcome S1) (o2 : outcome S2) : Prop :=
  match o1, o2 with
  | Running, Running => True
  | Raised x, Raised y => x = y
  | _, _ => False
  end.

(** *** What [time.sleep] does with a length *)

(** The lengths [time_sleep] does not raise on, and what it raises on the
    others. *)
Definition sleep_accepts `{Builtins} (secs : Z) : bool :=
  (0 <=? secs) && (secs <=? sleep_max).

Definition sleep_error `{Builtins} (secs : Z) : exn :=
  if (secs <? - time_max) || (time_max <? secs) then OverflowError
  else if secs <? 0 then ValueError
  else OSError.

(** *** The calls of [read_sensor] and of [publish_data] *)

(** The driver gave both values. *)
Definition read_ok (reply : option float * option float) : bool :=
  match reply with
  | (Some _, Some _) => true
  | _ => false
  end.

(** The calls [read_sensor] makes when the driver answers [reply] and the
    clock [now], and the tuple it then returns. *)
Definition read_sensor_events (sensor gpio_pin : Z)
    (reply : option float * option float) (now : datetime) : list event :=
  [ ELog DEBUG "reading sensor" [];
    ERead sensor gpio_pin reply;
    match reply with
    | (Some h, Some t) => ELog DEBUG "sensor data: RH: {}, Tc: {}" [VFloat h; VFloat t]
    | _ => ELog ERROR "failed to read from the sensor" []
    end;
    ENow now ].

Definition read_sensor_result (reply : option float * option float) (now : datetime)
  : Z * number * number * datetime :=
  match reply with
  | (Some h, Some t) => (0, Float h, Float t, now)
  | _ => (1, Int 0, Int 0, now)
  end.

(** The calls [publish_data] makes when the store answers [reply], and
    the code it then returns. *)
Definition publish_events (es : Elasticsearch) (doc_index : string)
    (sensor_data : SensorReading) (reply : gmap string pyval) : list event :=
  EIndex es doc_index "sensor_data" (dict sensor_data) reply ::
  (if not_created reply
   then [ELog ERROR "publishing error: result: {}" [VDict reply]]
   else []).

Definition publish_result (reply : gmap string pyval) : Z :=
  if not_created reply then 1 else 0.

Definition is_index (ev : event) : bool :=
  match ev with
  | EIndex _ _ _ _ _ => true
  | _ => false
  end.

(** *** The calls of one pass of the loop, and of [run] before it *)

(** The reading a pass builds, the calls of a whole pass, and its value. *)
Definition reading_of (config : AppConfig) (h t : float) (now : datetime)
  : SensorReading :=
  {| hum_rh := h; temp_c := t; timestamp := Some now; location := doc_tag config |}.

Definition pass_tail (config : AppConfig) (es : Elasticsearch)
    (reply : option float * option float) (now : datetime)
    (answer : gmap string pyval) : list event :=
  match reply with
  | (Some h, Some t) =>
      publish_events es (es_index config) (reading_of config h t now) answer
  | _ => [ELog ERROR "failed to read from sensor" []]
  end.

Definition pass_events (config : AppConfig) (es : Elasticsearch)
    (reply : option float * option float) (now : datetime)
    (answer : gmap string pyval) : list event :=
  [ESleep (pub_intvl config)] ++
  read_sensor_events (sensor config) (gpio_pin config) reply now ++
  pass_tail config es reply now answer.

Definition pass_result (config : AppConfig)
    (reply : option float * option float) (now : datetime) : option SensorReading :=
  match reply with
  | (Some h, Some t) => Some (reading_of config h t now)
  | _ => None
  end.

Definition run_prelude (config : AppConfig) : list event :=
  [ELog INFO "starting" []; ECreate (connect config) (es_index config) 400].

(** *** Configuration loading and the process *)

(** The tests of [get_config] lead into the handler of a malformed
    ES_PORT. *)
Definition port_handler_reached `{Builtins} (environ : gmap string string) : Prop :=
  environ_get environ "ES_HOST" "" <> "" /\
  environ_get environ "ES_PORT" "" <> "" /\
  int (environ_get environ "ES_PORT" "") = None.

Definition required : list string :=
  ["ES_HOST"; "ES_PORT"; "ES_INDEX"; "DOC_TAG"; "PUB_INTVL"; "GPIO_PIN"].

Definition numeric : list string := ["ES_PORT"; "PUB_INTVL"; "GPIO_PIN"].

(** The exit status: the argument of [sys.exit], or 1 when an exception
    nobody caught ends the process with a traceback. *)
Definition exit_status (o : outcome Z) : option Z :=
  match o with
  | Returned n => Some (n mod 256)
  | Raised _ => Some 1
  | Running => None
  end.

(** *** The loop controller and the document of the specification *)

(** The controller of the specification: what [run] is about to do. *)
Inductive phase : Type := INIT | WAIT | READ | PUBLISH.

(** One call moves the controller on; logging and reading the clock are
    no steps of it.  A sleep counts only with the interval [intvl]. *)
Definition advance (intvl : Z) (ph : phase) (ev : event) : option phase :=
  match ev, ph with
  | ELog _ _ _, _ | ENow _, _ => Some ph
  | ECreate _ _ _, INIT => Some WAIT
  | ESleep secs, WAIT => if secs =? intvl then Some READ else None
  | ERead _ _ reply, READ => Some (if read_ok reply then PUBLISH else WAIT)
  | EIndex _ _ _ _ _, PUBLISH => Some WAIT
  | _, _ => None
  end.

Fixpoint follow (intvl : Z) (ph : phase) (tr : list event) : option phase :=
  match tr with
  | [] => Some ph
  | ev :: tr' =>
      match advance intvl ph ev with
      | Some ph' => follow intvl ph' tr'
      | None => None
      end
  end.

(** The document of the specification, keys in the order it lists them. *)
Definition document (h t : float) (ts : datetime) (g : string)
  : gmap string pyval :=
  <["hum_rh" := VFloat h]>
  (<["temp_c" := VFloat t]>
  (<["location" := VStr g]>
  (<["timestamp" := VDatetime ts]> ∅))).

(** *** Notions of the further properties *)

(** [environ] holds what [get_config] needs to build [config]. *)
Definition configures `{Builtins} (environ : gmap string string)
    (config : AppConfig) : Prop :=
  es_host config = environ_get environ "ES_HOST" "" /\
  es_host config <> "" /\
  environ_get environ "ES_PORT" "" <> "" /\
  int (environ_get environ "ES_PORT" "") = Some (es_port config) /\
  es_index config = environ_get environ "ES_INDEX" "" /\
  es_index config <> "" /\
  doc_tag config = environ_get environ "DOC_TAG" "" /\
  doc_tag config <> "" /\
  int (environ_get environ "PUB_INTVL" "") = Some (pub_intvl config) /\
  environ_get environ "GPIO_PIN" "" <> "" /\
  int (environ_get environ "GPIO_PIN" "") = Some (gpio_pin config) /\
  sensor config = SENSOR.

(** What the sensor, the clock and the store answer in one pass. *)
Definition answers : Type :=
  (option float * option float) * datetime * gmap string pyval.

(** The calls of the passes that get the answers [inputs], one after the
    other. *)
Definition passes (config : AppConfig) (es : Elasticsearch)
    (inputs : list answers) : list event :=
  List.concat (List.map (fun a : answers =>
                          pass_events config es a.1.1 a.1.2 a.2) inputs).

Definition is_sleep (ev : event) : bool :=
  match ev with
  | ESleep _ => true
  | _ => false
  end.

Definition is_read (ev : event) : bool :=
  match ev with
  | ERead _ _ _ => true
  | _ => false
  end.

Definition is_good_read (ev : event) : bool :=
  match ev with
  | ERead _ _ reply => read_ok reply
  | _ => false
  end.

Definition is_error (ev : event) : bool :=
  match ev with
  | ELog ERROR _ _ => true
  | _ => false
  end.

Definition count (f : event -> bool) (tr : list event) : nat :=
  length (List.filter f tr).

(** The call uses what the configuration says. *)
Definition honours (config : AppConfig) (ev : event) : Prop :=
  match ev with
  | ESleep secs => secs = pub_intvl config
  | ERead s p _ => s = sensor config /\ p = gpio_pin config
  | ECreate es index ignore =>
      es = connect config /\ index = es_index config /\ ignore = 400
  | EIndex es index doc_type _ _ =>
      es = connect config /\ index = es_index config /\ doc_type = "sensor_data"
  | ELog _ _ _ | ENow _ => True
  end.

(** ** An interpreter to evaluate with

    CPython 3.11 on a 64-bit Linux, for strings of ASCII characters.
    [int()] takes blanks around the numeral, a sign, single underscores
    between digits and at most 4300 digits (on other characters it may
    take Unicode blanks and digits, which [ascii_int] refuses).
    [float()] rounds once, to the nearest float, ties to even (from
    2^1024 - 2^970 on CPython raises [OverflowError], where [float_of_Z]
    gives infinity).  The clock counts 2^63 nanoseconds; Linux takes a
    sleep that ends, counted from boot, within them, so the longest sleep
    depends on the uptime: [reference] takes 9 * 10^9 s, which a host up
    for less than seven years sleeps.  The client of elasticsearch-py 7
    hands each host string to [urllib.parse.urlparse] and reads its port,
    a [ValueError] unless the text after the first colon is empty or
    decimal digits of a number up to 65535 (for host names without scheme,
    path, user or bracket). *)

Definition code (c : Ascii.ascii) : Z := Z.of_N (Ascii.N_of_ascii c).

Definition is_blank (c : Ascii.ascii) : bool :=
  ((9 <=? code c) && (code c <=? 13)) || (code c =? 32).

Definition digit_value (c : Ascii.ascii) : option Z :=
  if (48 <=? code c) && (code c <=? 57) then Some (code c - 48) else None.

Fixpoint lstrip (s : list Ascii.ascii) : list Ascii.ascii :=
  match s with
  | c :: s' => if is_blank c then lstrip s' else s
  | [] => []
  end.

Definition strip (s : list Ascii.ascii) : list Ascii.ascii :=
  rev (lstrip (rev (lstrip s))).

(** Digits with single underscores between them: the number and how many
    digits it has. *)
Fixpoint decimal (acc : Z) (digits : nat) (after_digit : bool)
    (s : list Ascii.ascii) : option (Z * nat) :=
  match s with
  | [] => if after_digit then Some (acc, digits) else None
  | c :: s' =>
      if code c =? 95 then
        if after_digit then decimal acc digits false s' else None
      else
        match digit_value c with
        | Some d => decimal (10 * acc + d) (S digits) true s'
        | None => None
        end
  end.

Definition max_str_digits : nat := 4300.

Definition numeral (s : list Ascii.ascii) : option Z :=
  match decimal 0 0 false s with
  | Some (z, digits) => if (digits <=? max_str_digits)%nat then Some z else None
  | None => None
  end.

Definition ascii_int (s : string) : option Z :=
  match strip (String.list_ascii_of_string s) with
  | c :: s' =>
      if code c =? 45 then option_map Z.opp (numeral s')
      else if code c =? 43 then numeral s'
      else numeral (c :: s')
  | [] => None
  end.

(** A natural number: below 2^63 the hardware conversion rounds; above,
    its top 62 bits are converted with a sticky bit for the rest, and
    scaled. *)
Definition float_of_N (n : Z) : float :=
  let bits := Z.log2 n + 1 in
  if bits <=? 63 then PrimFloat.of_uint63 (Uint63.of_Z n)
  else
    let shift := bits - 62 in
    let sticky := if Z.land n (Z.ones shift) =? 0 then 0 else 1 in
    FloatOps.Z.ldexp
      (PrimFloat.of_uint63 (Uint63.of_Z (2 * Z.shiftr n shift + sticky)))
      (shift - 1).

Definition float_of_Z (z : Z) : float :=
  if z <? 0 then (- float_of_N (- z))%float else float_of_N z.

(** The text after the first colon, if there is one. *)
Fixpoint port_text (s : list Ascii.ascii) : option (list Ascii.ascii) :=
  match s with
  | c :: s' => if code c =? 58 then Some s' else port_text s'
  | [] => None
  end.

Fixpoint digits_only (acc : Z) (s : list Ascii.ascii) : option Z :=
  match s with
  | c :: s' =>
      match digit_value c with
      | Some d => digits_only (10 * acc + d) s'
      | None => None
      end
  | [] => Some acc
  end.

Definition host_error (host : string) : option exn :=
  match port_text (String.list_ascii_of_string host) with
  | None | Some [] => None
  | Some port =>
      match digits_only 0 port with
      | Some n => if n <=? 65535 then None else Some ValueError
      | None => Some ValueError
      end
  end.

Fixpoint hosts_error (hosts : list string) : option exn :=
  match hosts with
  | host :: hosts' =>
      match host_error host with
      | Some x => Some x
      | None => hosts_error hosts'
      end
  | [] => None
  end.

Definition reference : Builtins :=
  {| int := ascii_int;
     int_empty := eq_refl;
     float_of_int := float_of_Z;
     time_max := 9223372036;
     sleep_max := 9000000000;
     sleep_max_fits := proj1 (Z.leb_le 9000000000 9223372036) eq_refl;
     client_error := hosts_error |}.

(** ** Environments, configurations and runs to evaluate on *)

Definition garage_environ : gmap string string :=
  <["ES_HOST" := "localhost"]>
  (<["ES_PORT" := "9200"]>
  (<["ES_INDEX" := "temps"]>
  (<["DOC_TAG" := "garage"]>
  (<["PUB_INTVL" := "60"]>
  (<["GPIO_PIN" := "4"]> ∅))))).

Definition garage_config : AppConfig :=
  {| es_host := "localhost"; es_port := 9200; es_index := "temps";
     doc_tag := "garage"; pub_intvl := 60; gpio_pin := 4; sensor := SENSOR |}.

Definition hasty_config : AppConfig :=
  {| es_host := "localhost"; es_port := 9200; es_index := "temps";
     doc_tag := "garage"; pub_intvl := -1; gpio_pin := 4; sensor := SENSOR |}.

Definition hasty_environ : gmap string string :=
  <["PUB_INTVL" := "-1"]> garage_environ.

Definition portless_config : AppConfig :=
  {| es_host := "localhost"; es_port := -1; es_index := "temps";
     doc_tag := "garage"; pub_intvl := 60; gpio_pin := 4; sensor := SENSOR |}.

Definition portless_environ : gmap string string :=
  <["ES_PORT" := "-1"]> garage_environ.

Definition no_interval_environ : gmap string string :=
  delete "PUB_INTVL" garage_environ.

Definition bare_environ : gmap string string :=
  <["ES_HOST" := "localhost"]> (<["ES_PORT" := "abc"]> ∅).

Definition abc_port_environ : gmap string string :=
  <["ES_PORT" := "abc"]> garage_environ.

Definition tcp_port_environ : gmap string string :=
  <["ES_PORT" := "9200/tcp"]> garage_environ.

Definition abc_interval_environ : gmap string string :=
  <["PUB_INTVL" := "abc"]> garage_environ.

Definition noon : datetime := mk_datetime 2020 6 1 12 0 0 0.

Definition humid : float := 55.2.
Definition warm : float := 21.3.

Definition half_reply : option float * option float := (Some humid, None).

Definition created_answer : gmap string pyval :=
  <["result" := VStr "created"]> (<["_version" := VInt 1]> ∅).

Definition refused_answer : gmap string pyval :=
  <["result" := VStr "noop"]> ∅.

Definition garage_es : Elasticsearch := connect garage_config.

Definition garage_pass : list event :=
  pass_events garage_config garage_es (Some humid, Some warm) noon created_answer.

Definition refused_pass : list event :=
  pass_events garage_config garage_es (Some humid, Some warm) noon refused_answer.

Definition failed_pass : list event :=
  pass_events garage_config garage_es (None, None) noon ∅.

Definition garage_run : list event := run_prelude garage_config ++ garage_pass.

(** ** Facts about runs *)

(** Two equal [VisF] nodes share whatever holds of the event and the
    continuation of one. *)
Lemma VisF_transport {E : Type -> Type} {R T : Type}
    (P : forall Z, E Z -> (Z -> T) -> Prop)
    {X Y} (e : E X) (h : X -> T) (e' : E Y) (h' : Y -> T) :
  @VisF E R T X e h = VisF e' h' -> P X e h -> P Y e' h'.
Proof.
  intros Eq.
  refine (match Eq in _ = v
                return match v with
                       | VisF e0 h0 => P _ e h -> P _ e0 h0
                       | _ => True
                       end
          with eq_refl => fun p => p end).
Qed.

Section Runs.
Context {R : Type}.
Implicit Types (t u : itree ioE R) (tr : list event) (o : outcome R).

(** A run only looks at the head of the tree. *)
Lemma exec_observe t u tr o :
  observe t = observe u -> exec t tr o -> exec u tr o.
Proof.
  intros E H. destruct H.
  - apply exec_running.
  - apply exec_ret. congruence.
  - eapply exec_raise; [|eassumption]. rewrite <- E. eassumption.
  - eapply exec_tau; [|eassumption]. rewrite <- E. eassumption.
  - eapply exec_vis; [|eassumption]. rewrite <- E. eassumption.
Qed.

Lemma exec_Ret_inv t r tr o :
  observe t = RetF r -> exec t tr o ->
  tr = [] /\ (o = Running \/ o = Returned r).
Proof.
  intros E H. destruct H; try congruence.
  - auto.
  - split; [reflexivity|]. right. congruence.
Qed.

Lemma exec_Tau_inv t u tr o :
  observe t = TauF u -> exec t tr o -> exec u tr o.
Proof.
  intros E H. destruct H; try congruence.
  apply exec_running.
Qed.

Lemma exec_Vis_inv t X (e : ioE X) k tr o :
  observe t = VisF e k -> exec t tr o ->
  (tr = [] /\ o = Running) \/
  (exists x, raised e = Some x /\ tr = [] /\ o = Raised x) \/
  (exists x tr', tr = observed e x :: tr' /\ exec (k x) tr' o).
Proof.
  intros E H. destruct H as [ | |t Y e' k' x H Hx|t u tr o H|t Y e' k' x tr o H Hx];
    try (rewrite E in H; discriminate H); try rewrite E in H.
  - auto.
  - right; left. exists x. repeat split.
    exact (VisF_transport (fun Z e0 _ => raised e0 = Some x) _ _ _ _ (eq_sym H) Hx).
  - right; right.
    refine (VisF_transport
              (fun Z e0 k0 =>
                 exists (y : Z) tr', observed e' x :: tr = observed e0 y :: tr'
                                     /\ exec (k0 y) tr' o)
              _ _ _ _ (eq_sym H) _).
    exists x, tr. auto.
Qed.

End Runs.

Lemma observe_bind_cases {A B} (t : itree ioE A) (k : A -> itree ioE B) :
  observe (ITree.bind t k) =
  match observe t with
  | RetF a => observe (k a)
  | TauF u => TauF (ITree.bind u k)
  | VisF e h => VisF e (fun x => ITree.bind (h x) k)
  end.
Proof. rewrite observe_bind. destruct (observe t); reflexivity. Qed.

Lemma observe_forever {A B} (t : itree ioE A) :
  observe (ITree.forever t : itree ioE B) =
  observe (ITree.bind t (fun _ => Tau (ITree.forever t : itree ioE B))).
Proof. apply observing_observe, unfold_forever_. Qed.

Section RunsOfBind.
Context {A B : Type}.
Implicit Types (t : itree ioE A) (k : A -> itree ioE B) (tr : list event).

Lemma exec_bind_returned t k tr1 a tr2 o :
  exec t tr1 (Returned a) -> exec (k a) tr2 o ->
  exec (ITree.bind t k) (tr1 ++ tr2) o.
Proof.
  intros Ht Hk. remember (Returned a) as oa eqn:Eo.
  induction Ht as [ |t r E|t X e h x E Hx|t u tr oa E Ht IH|t X e h x tr oa E Ht IH];
    try discriminate Eo.
  - injection Eo as ->. simpl.
    eapply exec_observe; [|exact Hk].
    rewrite observe_bind_cases, E. reflexivity.
  - eapply exec_tau; [|exact (IH Eo)].
    rewrite observe_bind_cases, E. reflexivity.
  - simpl. eapply exec_vis with (k := fun y => ITree.bind (h y) k); [|exact (IH Eo)].
    rewrite observe_bind_cases, E. reflexivity.
Qed.

Lemma exec_bind_running t k tr :
  exec t tr Running -> exec (ITree.bind t k) tr Running.
Proof.
  intros Ht. remember Running as oa eqn:Eo.
  induction Ht as [ |t r E|t X e h x E Hx|t u tr oa E Ht IH|t X e h x tr oa E Ht IH];
    try discriminate Eo.
  - apply exec_running.
  - eapply exec_tau; [|exact (IH Eo)].
    rewrite observe_bind_cases, E. reflexivity.
  - eapply exec_vis with (k := fun y => ITree.bind (h y) k); [|exact (IH Eo)].
    rewrite observe_bind_cases, E. reflexivity.
Qed.

Lemma exec_bind_raised t k tr x :
  exec t tr (Raised x) -> exec (ITree.bind t k) tr (Raised x).
Proof.
  intros Ht. remember (Raised x) as oa eqn:Eo.
  induction Ht as [ |t r E|t X e h y E Hy|t u tr oa E Ht IH|t X e h y tr oa E Ht IH];
    try discriminate Eo.
  - injection Eo as ->.
    eapply exec_raise with (k := fun y => ITree.bind (h y) k); [|exact Hy].
    rewrite observe_bind_cases, E. reflexivity.
  - eapply exec_tau; [|exact (IH Eo)].
    rewrite observe_bind_cases, E. reflexivity.
  - eapply exec_vis with (k := fun y => ITree.bind (h y) k); [|exact (IH Eo)].
    rewrite observe_bind_cases, E. reflexivity.
Qed.

(** A run of [bind t k] is a run of [t] that has not returned, or a run
    of [t] that returns followed by a run of [k]. *)
Lemma exec_bind_inv t k tr o :
  exec (ITree.bind t k) tr o ->
  (o = Running /\ exec t tr Running) \/
  (exists x, o = Raised x /\ exec t tr (Raised x)) \/
  (exists tr1 a tr2, tr = tr1 ++ tr2 /\ exec t tr1 (Returned a) /\ exec (k a) tr2 o).
Proof.
  intros H. remember (ITree.bind t k) as u eqn:Eu.
  assert (Eo : observe u = observe (ITree.bind t k)) by (subst; reflexivity).
  clear Eu. revert t Eo.
  induction H as [u|u r E|u X e h x E Hx|u u' tr o E Hu IH|u X e h x tr o E Hu IH];
    intros t Eo; rewrite observe_bind_cases in Eo.
  - left. split; [reflexivity|apply exec_running].
  - destruct (observe t) as [a|t'|Y e h] eqn:Et; try congruence.
    right; right. exists [], a, []. repeat split.
    + apply exec_ret, Et.
    + apply exec_ret. congruence.
  - destruct (observe t) as [a|t'|Y e' h'] eqn:Et.
    + right; right. exists [], a, []. repeat split.
      * apply exec_ret, Et.
      * eapply exec_raise; [|exact Hx]. rewrite <- Eo. exact E.
    + congruence.
    + right; left. exists x. split; [reflexivity|].
      rewrite E in Eo. eapply exec_raise; [exact Et|].
      exact (VisF_transport (fun Z e0 _ => raised e0 = Some x) _ _ _ _ Eo Hx).
  - destruct (observe t) as [a|t'|Y e' h'] eqn:Et.
    + right; right. exists [], a, tr. repeat split.
      * apply exec_ret, Et.
      * eapply exec_tau; [|exact Hu]. rewrite <- Eo. exact E.
    + rewrite E in Eo. injection Eo as ->.
      destruct (IH t' eq_refl) as [[-> Ht]|[(x & -> & Ht)|(tr1 & a & tr2 & -> & Ht & Hk)]].
      * left. split; [reflexivity|]. eapply exec_tau; eassumption.
      * right; left. exists x. split; [reflexivity|]. eapply exec_tau; eassumption.
      * right; right. exists tr1, a, tr2. repeat split; [|exact Hk].
        eapply exec_tau; eassumption.
    + congruence.
  - destruct (observe t) as [a|t'|Y e' h'] eqn:Et.
    + right; right. exists [], a, (observed e x :: tr). repeat split.
      * apply exec_ret, Et.
      * eapply exec_vis; [|exact Hu]. rewrite <- Eo. exact E.
    + congruence.
    + rewrite E in Eo. revert x Hu IH.
      refine (VisF_transport
                (fun Z e0 h0 =>
                   forall x : Z, exec (h0 x) tr o ->
                     (forall t0, observe (h0 x) = observe (ITree.bind t0 k) -> _) ->
                     (o = Running /\ exec t (observed e0 x :: tr) Running) \/
                     (exists y, o = Raised y /\ exec t (observed e0 x :: tr) (Raised y)) \/
                     (exists tr1 a tr2,
                        observed e0 x :: tr = tr1 ++ tr2 /\
                        exec t tr1 (Returned a) /\ exec (k a) tr2 o))
                _ _ _ _ (eq_sym Eo) _).
      intros x Hu IH.
      destruct (IH (h' x) eq_refl)
        as [[-> Ht]|[(y & -> & Ht)|(tr1 & a & tr2 & -> & Ht & Hk)]].
      * left. split; [reflexivity|]. eapply exec_vis; eassumption.
      * right; left. exists y. split; [reflexivity|]. eapply exec_vis; eassumption.
      * right; right. exists (observed e' x :: tr1), a, tr2. repeat split; [|exact Hk].
        eapply exec_vis; eassumption.
Qed.

End RunsOfBind.

Section RunsOfLoop.
Context {A S : Type} (body : itree ioE A).
Implicit Types (tr : list event) (o : outcome S).

Let again : A -> itree ioE S := fun _ => Tau (ITree.forever body).

Lemma exec_loop_of_pass tr o :
  (o = Running /\ exec body tr Running) \/
  (exists x, o = Raised x /\ exec body tr (Raised x)) \/
  (exists tr1 a tr2, tr = tr1 ++ tr2 /\ exec body tr1 (Returned a) /\
                     exec_loop body tr2 o) ->
  exec_loop body tr o.
Proof.
  intros [[-> Hb]|[(x & -> & Hb)|(tr1 & a & tr2 & -> & Hb & Hl)]].
  - apply loop_running, Hb.
  - apply loop_raise, Hb.
  - eapply loop_next; eassumption.
Qed.

Lemma exec_again_inv (u : itree ioE S) tr o :
  exec u tr o ->
  forall t : itree ioE A,
    observe u = observe (ITree.bind t again) ->
    (o = Running /\ exec t tr Running) \/
    (exists x, o = Raised x /\ exec t tr (Raised x)) \/
    (exists tr1 a tr2, tr = tr1 ++ tr2 /\ exec t tr1 (Returned a) /\
                       exec_loop body tr2 o).
Proof.
  induction 1 as [u|u r E|u X e h x E Hx|u u' tr o E Hu IH|u X e h x tr o E Hu IH];
    intros t Eo; rewrite observe_bind_cases in Eo.
  - left. split; [reflexivity|apply exec_running].
  - destruct (observe t) as [a|t'|Y e h] eqn:Et; simpl in Eo; congruence.
  - destruct (observe t) as [a|t'|Y e' h'] eqn:Et; simpl in Eo; try congruence.
    right; left. exists x. split; [reflexivity|].
    rewrite E in Eo. eapply exec_raise; [exact Et|].
    exact (VisF_transport (fun Z e0 _ => raised e0 = Some x) _ _ _ _ Eo Hx).
  - destruct (observe t) as [a|t'|Y e' h'] eqn:Et; simpl in Eo; try congruence.
    + rewrite E in Eo. injection Eo as ->.
      right; right. exists [], a, tr. repeat split.
      * apply exec_ret, Et.
      * apply exec_loop_of_pass, IH, observe_forever.
    + rewrite E in Eo. injection Eo as ->.
      destruct (IH t' eq_refl) as [[-> Ht]|[(x & -> & Ht)|(tr1 & a & tr2 & -> & Ht & Hl)]].
      * left. split; [reflexivity|]. eapply exec_tau; eassumption.
      * right; left. exists x. split; [reflexivity|]. eapply exec_tau; eassumption.
      * right; right. exists tr1, a, tr2. repeat split; [|exact Hl].
        eapply exec_tau; eassumption.
  - destruct (observe t) as [a|t'|Y e' h'] eqn:Et; simpl in Eo; try congruence.
    rewrite E in Eo. revert x Hu IH.
    refine (VisF_transport
              (fun Z e0 h0 =>
                 forall x : Z, exec (h0 x) tr o ->
                   (forall t0, observe (h0 x) = observe (ITree.bind t0 again) -> _) ->
                   (o = Running /\ exec t (observed e0 x :: tr) Running) \/
                   (exists y, o = Raised y /\ exec t (observed e0 x :: tr) (Raised y)) \/
                   (exists tr1 a tr2,
                      observed e0 x :: tr = tr1 ++ tr2 /\
                      exec t tr1 (Returned a) /\ exec_loop body tr2 o))
              _ _ _ _ (eq_sym Eo) _).
    intros x Hu IH.
    destruct (IH (h' x) eq_refl)
      as [[-> Ht]|[(y & -> & Ht)|(tr1 & a & tr2 & -> & Ht & Hl)]].
    + left. split; [reflexivity|]. eapply exec_vis; eassumption.
    + right; left. exists y. split; [reflexivity|]. eapply exec_vis; eassumption.
    + right; right. exists (observed e' x :: tr1), a, tr2. repeat split; [|exact Hl].
      eapply exec_vis; eassumption.
Qed.

(** The runs of [while True: body] are those of [exec_loop]. *)
Lemma exec_forever_inv tr o :
  exec (ITree.forever body) tr o -> exec_loop body tr o.
Proof.
  intros H. apply exec_loop_of_pass.
  exact (exec_again_inv _ _ _ H body (observe_forever body)).
Qed.

Lemma exec_forever_intro tr o :
  exec_loop body tr o -> exec (ITree.forever body) tr o.
Proof.
  induction 1 as [tr Hb|tr x Hb|tr1 a tr2 o Hb Hl IH].
  - eapply exec_observe; [symmetry; apply observe_forever|].
    apply exec_bind_running, Hb.
  - eapply exec_observe; [symmetry; apply observe_forever|].
    apply exec_bind_raised, Hb.
  - eapply exec_observe; [symmetry; apply observe_forever|].
    eapply exec_bind_returned; [exact Hb|].
    eapply exec_tau; [reflexivity|exact IH].
Qed.

(** No pass returns out of the loop. *)
Lemma exec_loop_not_returned tr (s : S) : ~ exec_loop body tr (Returned s).
Proof.
  intros H. remember (Returned s) as o eqn:Eo.
  induction H; try discriminate Eo. auto.
Qed.

End RunsOfLoop.

Lemma exec_loop_retype {A S1 S2} (body : itree ioE A) tr
    (o1 : outcome S1) (o2 : outcome S2) :
  same_stop o1 o2 -> exec_loop body tr o1 -> exec_loop body tr o2.
Proof.
  intros Hs Hl. induction Hl as [tr Hb|tr x Hb|tr1 a tr2 o Hb Hl IH].
  - destruct o2; try destruct Hs. apply loop_running, Hb.
  - destruct o2; try destruct Hs. apply loop_raise, Hb.
  - eapply loop_next; [exact Hb|]. apply IH, Hs.
Qed.

(** ** Prefixes of runs *)

Lemma exec_prefix {R} (t : itree ioE R) tr o tr' :
  exec t tr o -> tr' `prefix_of` tr -> exec t tr' Running.
Proof.
  intros H. revert tr'.
  induction H as [t|t r E|t X e h x E Hx|t u tr o E Hu IH|t X e h x tr o E Hu IH];
    intros tr' Hp.
  - apply prefix_nil_inv in Hp as ->. apply exec_running.
  - apply prefix_nil_inv in Hp as ->. apply exec_running.
  - apply prefix_nil_inv in Hp as ->. apply exec_running.
  - eapply exec_tau; [exact E|]. apply IH, Hp.
  - destruct tr' as [|ev tr'].
    + apply exec_running.
    + pose proof (prefix_cons_inv_1 _ _ _ _ Hp) as ->.
      apply prefix_cons_inv_2 in Hp.
      eapply exec_vis; [exact E|]. apply IH, Hp.
Qed.

Lemma exec_cut_of {R} (t : itree ioE R) full res tr o :
  exec t full res -> cut_of full res tr o -> exec t tr o.
Proof.
  intros H [[-> ->]|[Hp ->]]; [exact H|]. eapply exec_prefix; eassumption.
Qed.

Lemma cut_of_nil {R} full (res : outcome R) : cut_of full res [] Running.
Proof. right. split; [apply prefix_nil|reflexivity]. Qed.

Lemma cut_of_cons {R} ev full (res : outcome R) tr o :
  cut_of full res tr o -> cut_of (ev :: full) res (ev :: tr) o.
Proof.
  intros [[-> ->]|[Hp ->]]; [left; auto|].
  right. split; [apply prefix_cons, Hp|reflexivity].
Qed.

Lemma cut_of_returned {R} full (res : outcome R) tr r :
  cut_of full res tr (Returned r) -> tr = full /\ res = Returned r.
Proof. intros [[-> ->]|[_ E]]; [auto|discriminate E]. Qed.

Lemma cut_of_raised {R} full (res : outcome R) tr x :
  cut_of full res tr (Raised x) -> tr = full /\ res = Raised x.
Proof. intros [[-> ->]|[_ E]]; [auto|discriminate E]. Qed.

Lemma cut_of_prefix {R} full (res : outcome R) tr o :
  cut_of full res tr o -> tr `prefix_of` full.
Proof. intros [[-> _]|[Hp _]]; [reflexivity|exact Hp]. Qed.

(** *** The building blocks *)

Lemma exec_Ret {R} (r : R) tr o :
  exec (Ret r : itree ioE R) tr o <-> cut_of [] (Returned r) tr o.
Proof.
  split.
  - intros H. apply (exec_Ret_inv _ r) in H; [|reflexivity].
    destruct H as [-> [->| ->]]; [apply cut_of_nil|left; auto].
  - apply exec_cut_of, exec_ret. reflexivity.
Qed.

Lemma exec_raise_iff {R} (x : exn) tr (o : outcome R) :
  exec (raise x) tr o <-> cut_of [] (Raised x) tr o.
Proof.
  split.
  - intros H. eapply exec_Vis_inv in H; [|reflexivity].
    destruct H as [[-> ->]|[(y & Hy & -> & ->)|([] & _)]].
    + apply cut_of_nil.
    + injection Hy as <-. left; auto.
  - apply exec_cut_of. eapply exec_raise; reflexivity.
Qed.

(** A call answered by [x], then the rest of the program. *)
Lemma exec_call {X R} (e : ioE X) (k : X -> itree ioE R) x tr o :
  exec (k x) tr o -> exec (ITree.bind (ITree.trigger e) k) (observed e x :: tr) o.
Proof.
  intros H. apply exec_vis with (k := fun y => ITree.bind (Ret y) k); [reflexivity|].
  eapply exec_observe; [|exact H]. reflexivity.
Qed.

Lemma exec_call_inv {X R} (e : ioE X) (k : X -> itree ioE R) tr o :
  raised e = None ->
  exec (ITree.bind (ITree.trigger e) k) tr o ->
  (tr = [] /\ o = Running) \/
  (exists x tr', tr = observed e x :: tr' /\ exec (k x) tr' o).
Proof.
  intros He H.
  apply exec_Vis_inv with (e := e) (k := fun y => ITree.bind (Ret y) k) in H;
    [|reflexivity].
  destruct H as [?|[(y & Hy & _)|(x & tr' & -> & H)]]; [auto|congruence|].
  right. exists x, tr'. split; [reflexivity|].
  eapply exec_observe; [|exact H]. reflexivity.
Qed.

Lemma cut_of_app_l {R} f1 f2 (res : outcome R) tr :
  tr `prefix_of` f1 -> cut_of (f1 ++ f2) res tr Running.
Proof.
  intros Hp. right. split; [|reflexivity]. apply prefix_app_r, Hp.
Qed.

Lemma cut_of_app_r {R} f1 f2 (res : outcome R) tr o :
  cut_of f2 res tr o -> cut_of (f1 ++ f2) res (f1 ++ tr) o.
Proof.
  intros [[-> ->]|[Hp ->]]; [left; auto|].
  right. split; [apply prefix_app, Hp|reflexivity].
Qed.

(** ** The runs of each function *)

Section ProgramRuns.
Context `{Builtins}.

Lemma exec_time_sleep_accepted secs tr o :
  sleep_accepts secs = true ->
  exec (time_sleep secs) tr o <-> cut_of [ESleep secs] (Returned tt) tr o.
Proof.
  unfold sleep_accepts, time_sleep. intros Ha.
  apply andb_true_iff in Ha as [H0 H1].
  apply Z.leb_le in H0, H1.
  pose proof sleep_max_fits as Hf.
  replace ((secs <? - time_max) || (time_max <? secs)) with false
    by (symmetry; apply orb_false_iff; split; apply Z.ltb_ge; lia).
  destruct (Z.ltb_spec secs 0) as [?|_]; [lia|].
  destruct (Z.ltb_spec sleep_max secs) as [?|_]; [lia|].
  split.
  - intros Hx. eapply exec_Vis_inv in Hx; [|reflexivity].
    destruct Hx as [[-> ->]|[(y & Hy & _)|([] & tr' & -> & Hx)]].
    + apply cut_of_nil.
    + discriminate Hy.
    + apply (cut_of_cons (ESleep secs)), exec_Ret, Hx.
  - apply exec_cut_of.
    apply exec_vis with (e := Sleep secs) (k := fun x => Ret x) (x := tt);
      [reflexivity|].
    apply exec_ret. reflexivity.
Qed.

Lemma exec_time_sleep_rejected secs tr o :
  sleep_accepts secs = false ->
  exec (time_sleep secs) tr o <-> cut_of [] (Raised (sleep_error secs)) tr o.
Proof.
  unfold sleep_accepts, time_sleep, sleep_error. intros Ha.
  destruct ((secs <? - time_max) || (time_max <? secs));
    [apply exec_raise_iff|].
  destruct (Z.ltb_spec secs 0) as [?|H0]; [apply exec_raise_iff|].
  destruct (Z.ltb_spec sleep_max secs) as [?|H1]; [apply exec_raise_iff|].
  apply andb_false_iff in Ha as [Ha|Ha]; apply Z.leb_gt in Ha; lia.
Qed.

(** *** [read_sensor] *)

Lemma exec_read_sensor_full sensor gpio_pin reply now :
  exec (read_sensor sensor gpio_pin)
       (read_sensor_events sensor gpio_pin reply now)
       (Returned (read_sensor_result reply now)).
Proof.
  unfold read_sensor, read_sensor_events, logging_debug, logging_error.
  apply (exec_call (Log DEBUG _ _) _ tt).
  apply (exec_call (ReadRetry _ _) _ reply).
  destruct reply as [[h|] [t|]]; cbn;
    apply (exec_call (Log _ _ _) _ tt), (exec_call Now _ now), exec_ret; reflexivity.
Qed.

Lemma exec_read_sensor sensor gpio_pin tr o :
  exec (read_sensor sensor gpio_pin) tr o <->
  exists reply now,
    cut_of (read_sensor_events sensor gpio_pin reply now)
           (Returned (read_sensor_result reply now)) tr o.
Proof.
  split.
  - unfold read_sensor, logging_debug, logging_error. intros Hx.
    apply exec_call_inv in Hx; [|reflexivity].
    destruct Hx as [[-> ->]|([] & tr1 & -> & Hx)].
    { exists (None, None), noon. apply cut_of_nil. }
    apply exec_call_inv in Hx; [|reflexivity].
    destruct Hx as [[-> ->]|(reply & tr2 & -> & Hx)].
    { exists (None, None), noon. apply cut_of_cons, cut_of_nil. }
    assert (Hrest :
      exists now, cut_of [match reply with
                          | (Some h, Some t) =>
                              ELog DEBUG "sensor data: RH: {}, Tc: {}" [VFloat h; VFloat t]
                          | _ => ELog ERROR "failed to read from the sensor" []
                          end; ENow now]
                         (Returned (read_sensor_result reply now)) tr2 o).
    { destruct reply as [[h|] [t|]]; cbn in Hx;
        (apply exec_call_inv in Hx; [|reflexivity];
         destruct Hx as [[-> ->]|([] & tr3 & -> & Hx)];
         [exists noon; apply cut_of_nil|]);
        (apply exec_call_inv in Hx; [|reflexivity];
         destruct Hx as [[-> ->]|(now & tr4 & -> & Hx)];
         [exists noon; apply cut_of_cons, cut_of_nil|]);
        exists now; apply cut_of_cons, cut_of_cons, exec_Ret, Hx. }
    destruct Hrest as (now & Hc). exists reply, now.
    apply cut_of_cons, cut_of_cons, Hc.
  - intros (reply & now & Hc). revert Hc.
    apply exec_cut_of, exec_read_sensor_full.
Qed.

(** *** [publish_data] *)

Lemma exec_publish_data_full es doc_index sensor_data reply :
  exec (publish_data es doc_index sensor_data)
       (publish_events es doc_index sensor_data reply)
       (Returned (publish_result reply)).
Proof.
  unfold publish_data, publish_events, publish_result, logging_error.
  apply (exec_call (Index _ _ _ _) _ reply).
  destruct (not_created reply).
  - apply (exec_call (Log _ _ _) _ tt), exec_ret. reflexivity.
  - apply exec_ret. reflexivity.
Qed.

Lemma exec_publish_data es doc_index sensor_data tr o :
  exec (publish_data es doc_index sensor_data) tr o <->
  exists reply,
    cut_of (publish_events es doc_index sensor_data reply)
           (Returned (publish_result reply)) tr o.
Proof.
  split.
  - unfold publish_data, publish_events, publish_result, logging_error. intros Hx.
    apply exec_call_inv in Hx; [|reflexivity].
    destruct Hx as [[-> ->]|(reply & tr1 & -> & Hx)].
    { exists ∅. apply cut_of_nil. }
    exists reply. apply cut_of_cons.
    destruct (not_created reply).
    + apply exec_call_inv in Hx; [|reflexivity].
      destruct Hx as [[-> ->]|([] & tr2 & -> & Hx)]; [apply cut_of_nil|].
      apply cut_of_cons, exec_Ret, Hx.
    + apply exec_Ret, Hx.
  - intros (reply & Hc). revert Hc.
    apply exec_cut_of, exec_publish_data_full.
Qed.

(** *** One pass of the loop *)

Lemma exec_iteration_full config es reply now answer :
  sleep_accepts (pub_intvl config) = true ->
  exec (iteration config es)
       (pass_events config es reply now answer)
       (Returned (pass_result config reply now)).
Proof.
  intros Ha. unfold iteration, pass_events.
  eapply exec_bind_returned.
  { apply exec_time_sleep_accepted; [exact Ha|]. left. split; reflexivity. }
  eapply exec_bind_returned; [apply exec_read_sensor_full|].
  unfold pass_tail, pass_result, logging_error.
  destruct reply as [[h|] [t|]]; cbn -[publish_data];
    try (apply (exec_call (Log _ _ _) _ tt), exec_ret; reflexivity).
  rewrite <- (app_nil_r (publish_events _ _ _ _)).
  eapply exec_bind_returned; [apply exec_publish_data_full|].
  apply exec_ret. reflexivity.
Qed.

Lemma exec_iteration config es tr o :
  sleep_accepts (pub_intvl config) = true ->
  exec (iteration config es) tr o <->
  exists reply now answer,
    cut_of (pass_events config es reply now answer)
           (Returned (pass_result config reply now)) tr o.
Proof.
  intros Ha. split.
  - unfold iteration. intros Hx.
    apply exec_bind_inv in Hx
      as [[-> Hs]|[(x & -> & Hs)|(tr1 & [] & tr2 & -> & Hs & Hx)]];
      apply (exec_time_sleep_accepted _ _ _ Ha) in Hs.
    { exists (None, None), noon, ∅. apply cut_of_app_l.
      eapply cut_of_prefix, Hs. }
    { apply cut_of_raised in Hs as [_ Hs]. discriminate Hs. }
    apply cut_of_returned in Hs as [-> _].
    apply exec_bind_inv in Hx
      as [[-> Hr]|[(x & -> & Hr)|(tr3 & [[[rc hum] temp] ts] & tr4 & -> & Hr & Hx)]];
      apply exec_read_sensor in Hr as (reply & now & Hr).
    { exists reply, now, ∅. apply cut_of_app_r, cut_of_app_l.
      eapply cut_of_prefix, Hr. }
    { apply cut_of_raised in Hr as [_ Hr]. discriminate Hr. }
    apply cut_of_returned in Hr as [-> Hr]. injection Hr as Hr.
    assert (Ht : exists answer,
               cut_of (pass_tail config es reply now answer)
                      (Returned (pass_result config reply now)) tr4 o).
    { unfold pass_tail, pass_result, logging_error in *.
      destruct reply as [[h|] [t|]]; cbn in Hr; injection Hr as <- <- <- <-;
        cbn -[publish_data] in Hx.
      2-4: exists ∅; apply exec_call_inv in Hx; [|reflexivity];
           destruct Hx as [[-> ->]|([] & tr5 & -> & Hx)]; [apply cut_of_nil|];
           apply cut_of_cons, exec_Ret, Hx.
      apply exec_bind_inv in Hx
        as [[-> Hp]|[(x & -> & Hp)|(tr5 & rc & tr6 & -> & Hp & Hx)]];
        apply exec_publish_data in Hp as (answer & Hp); exists answer.
      - right. split; [eapply cut_of_prefix, Hp|reflexivity].
      - apply cut_of_raised in Hp as [_ Hp]. discriminate Hp.
      - apply cut_of_returned in Hp as [-> _].
        apply exec_Ret in Hx.
        rewrite <- (app_nil_r (publish_events _ _ _ _)) at 1.
        apply cut_of_app_r, Hx. }
    destruct Ht as (answer & Ht). exists reply, now, answer.
    apply cut_of_app_r, cut_of_app_r, Ht.
  - intros (reply & now & answer & Hc). revert Hc.
    apply exec_cut_of, exec_iteration_full, Ha.
Qed.

Lemma exec_iteration_rejected config es tr o :
  sleep_accepts (pub_intvl config) = false ->
  exec (iteration config es) tr o <->
  cut_of [] (Raised (sleep_error (pub_intvl config))) tr o.
Proof.
  intros Ha. split.
  - unfold iteration. intros Hx.
    apply exec_bind_inv in Hx
      as [[-> Hs]|[(x & -> & Hs)|(tr1 & [] & tr2 & -> & Hs & Hx)]];
      apply (exec_time_sleep_rejected _ _ _ Ha) in Hs.
    + apply cut_of_prefix, prefix_nil_inv in Hs as ->. apply cut_of_nil.
    + apply cut_of_raised in Hs as [-> Hs]. injection Hs as <-. left; auto.
    + apply cut_of_returned in Hs as [_ Hs]. discriminate Hs.
  - apply exec_cut_of. unfold iteration.
    apply exec_bind_raised, (exec_time_sleep_rejected _ _ _ Ha). left; auto.
Qed.

(** *** [run] *)

Lemma exec_new_Elasticsearch {R} hosts (k : Elasticsearch -> itree ioE R) tr o :
  exec (ITree.bind (new_Elasticsearch hosts) k) tr o <->
  match client_error hosts with
  | Some x => cut_of [] (Raised x) tr o
  | None => exec (k {| hosts := hosts |}) tr o
  end.
Proof.
  unfold new_Elasticsearch. destruct (client_error hosts) as [x|].
  - split.
    + intros Hx.
      apply exec_bind_inv in Hx
        as [[-> Hr]|[(y & -> & Hr)|(tr1 & a & tr2 & -> & Hr & _)]];
        apply exec_raise_iff in Hr.
      * apply cut_of_prefix, prefix_nil_inv in Hr as ->. apply cut_of_nil.
      * apply cut_of_raised in Hr as [-> Hr]. injection Hr as ->. left; auto.
      * apply cut_of_returned in Hr as [_ Hr]. discriminate Hr.
    + intros [[-> ->]|[Hp ->]].
      * apply exec_bind_raised, exec_raise_iff. left; auto.
      * apply prefix_nil_inv in Hp as ->. apply exec_running.
  - split; apply exec_observe; rewrite observe_bind_cases; reflexivity.
Qed.

(** With a host string the client takes, [run] logs, creates the index
    and loops. *)
Lemma exec_run config tr o :
  client_error (hosts (connect config)) = None ->
  exec (run config) tr o <->
  (tr `prefix_of` run_prelude config /\ o = Running) \/
  (exists tr', tr = run_prelude config ++ tr' /\
               exec_loop (iteration config (connect config)) tr' o).
Proof.
  intros Hc. unfold run, run_prelude, logging_info. split.
  - intros Hx.
    apply exec_call_inv in Hx; [|reflexivity].
    destruct Hx as [[-> ->]|([] & tr1 & -> & Hx)].
    { left. split; [apply prefix_nil|reflexivity]. }
    apply exec_new_Elasticsearch in Hx. cbn in Hc. rewrite Hc in Hx.
    apply exec_call_inv in Hx; [|reflexivity].
    destruct Hx as [[-> ->]|([] & tr2 & -> & Hx)].
    { left. split; [apply prefix_cons, prefix_nil|reflexivity]. }
    right. exists tr2. split; [reflexivity|].
    apply exec_bind_inv in Hx
      as [[-> Hl]|[(x & -> & Hl)|(tr3 & [] & tr4 & -> & Hl & _)]];
      apply exec_forever_inv in Hl.
    + apply (exec_loop_retype _ _ Running Running I Hl).
    + apply (exec_loop_retype _ _ (Raised x) (Raised x) eq_refl Hl).
    + destruct (exec_loop_not_returned _ _ _ Hl).
  - assert (Hs : forall tr o,
               exec (ITree.bind (ITree.trigger (IndicesCreate (connect config)
                                                  (es_index config) 400))
                       (fun _ => ITree.bind
                                   (ITree.forever (iteration config (connect config))
                                    : itree ioE unit)
                                   (fun _ => Ret 0))) tr o ->
               exec (run config) (ELog INFO "starting" [] :: tr) o).
    { intros tr0 o0 Hx. apply (exec_call (Log _ _ _) _ tt).
      apply exec_new_Elasticsearch. cbn in Hc. rewrite Hc. exact Hx. }
    intros [[Hp ->]|(tr' & -> & Hl)].
    + eapply exec_prefix; [|exact Hp].
      apply Hs, (exec_call (IndicesCreate _ _ _) _ tt).
      apply exec_running.
    + apply Hs, (exec_call (IndicesCreate _ _ _) _ tt).
      destruct o as [r|x|].
      * destruct (exec_loop_not_returned _ _ _ Hl).
      * apply exec_bind_raised, exec_forever_intro.
        apply (exec_loop_retype _ _ (Raised x) (Raised x) eq_refl Hl).
      * apply exec_bind_running, exec_forever_intro.
        apply (exec_loop_retype _ _ Running Running I Hl).
Qed.

(** With one it refuses, [run] logs and dies of the constructor's
    exception. *)
Lemma exec_run_refused config x tr o :
  client_error (hosts (connect config)) = Some x ->
  exec (run config) tr o <-> cut_of [ELog INFO "starting" []] (Raised x) tr o.
Proof.
  intros Hc. unfold run, logging_info. split.
  - intros Hx.
    apply exec_call_inv in Hx; [|reflexivity].
    destruct Hx as [[-> ->]|([] & tr1 & -> & Hx)]; [apply cut_of_nil|].
    apply exec_new_Elasticsearch in Hx. cbn in Hc. rewrite Hc in Hx.
    apply (cut_of_cons (ELog INFO "starting" [])), Hx.
  - apply exec_cut_of.
    apply (exec_call (Log _ _ _) _ tt).
    apply exec_new_Elasticsearch. cbn in Hc. rewrite Hc. left; auto.
Qed.

(** Every run of [run]: among the two calls before the loop, or past
    them in the loop; it has raised before the loop only where the client
    refused the host string, right after the log. *)
Lemma exec_run_inv config tr o :
  exec (run config) tr o ->
  (tr `prefix_of` run_prelude config /\
   (o = Running \/
    exists x, o = Raised x /\ tr = [ELog INFO "starting" []] /\
              client_error (hosts (connect config)) = Some x)) \/
  (exists tr', tr = run_prelude config ++ tr' /\
               exec_loop (iteration config (connect config)) tr' o /\
               client_error (hosts (connect config)) = None).
Proof.
  intros Hx. destruct (client_error (hosts (connect config))) as [x|] eqn:Hc.
  - destruct (proj1 (exec_run_refused _ _ _ _ Hc) Hx) as [[Et Eo]|[Hp Eo]].
    + left. rewrite Et. split; [apply prefix_cons, prefix_nil|]. right. eauto.
    + left. split; [|auto]. etrans; [exact Hp|]. apply prefix_cons, prefix_nil.
  - destruct (proj1 (exec_run _ _ _ Hc) Hx) as [[Hp Eo]|(tr' & Et & Hl)]; eauto.
Qed.

End ProgramRuns.

(** *** [get_config] *)

(** Splits on the tests of [get_config], in the order it makes them. *)
Ltac config_tests :=
  repeat match goal with
         | H : exec (if String.eqb ?a ?b then _ else _) _ _ |- _ =>
             destruct (String.eqb_spec a b)
         | H : exec (match int ?s with Some _ => _ | None => _ end) _ _ |- _ =>
             destruct (int s) eqn:?
         | |- context [exec (if String.eqb ?a ?b then _ else _)] =>
             destruct (String.eqb_spec a b)
         | |- context [exec (match int ?s with Some _ => _ | None => _ end)] =>
             destruct (int s) eqn:?
         end.

Lemma exec_bind_raise {A R} (x : exn) (k : A -> itree ioE R) tr o :
  exec (ITree.bind (raise x) k) tr o <-> cut_of [] (Raised x) tr o.
Proof.
  split.
  - intros Hx.
    apply exec_bind_inv in Hx
      as [[-> Hr]|[(y & -> & Hr)|(tr1 & a & tr2 & -> & Hr & _)]];
      apply exec_raise_iff in Hr.
    + apply cut_of_prefix, prefix_nil_inv in Hr as ->. apply cut_of_nil.
    + apply cut_of_raised in Hr as [-> Hr]. injection Hr as ->. left; auto.
    + apply cut_of_returned in Hr as [_ Hr]. discriminate Hr.
  - intros Hc. destruct Hc as [[-> ->]|[Hp ->]].
    + apply exec_bind_raised, exec_raise_iff. left; auto.
    + apply prefix_nil_inv in Hp as ->. apply exec_running.
Qed.

(** Walks a run of a branch that only logs, raises or returns. *)
Ltac walk H :=
  repeat first
    [ apply (proj1 (exec_Ret _ _ _)) in H
    | apply (proj1 (exec_raise_iff _ _ _)) in H
    | apply (proj1 (exec_bind_raise _ _ _ _)) in H
    | apply exec_call_inv in H;
      [destruct H as [[? H]|([] & ? & ? & H)]; subst|reflexivity] ].

Section ConfigRuns.
Context `{Builtins}.

(** The tuple [get_config] returns is (1, None), or 0 with a configuration
    read off the six variables. *)
Lemma get_config_returned environ tr rc app_cfg :
  exec (get_config environ) tr (Returned (rc, app_cfg)) ->
  (rc = 1 /\ app_cfg = None) \/
  (rc = 0 /\ exists config,
     app_cfg = Some config /\
     es_host config = environ_get environ "ES_HOST" "" /\
     int (environ_get environ "ES_PORT" "") = Some (es_port config) /\
     es_index config = environ_get environ "ES_INDEX" "" /\
     doc_tag config = environ_get environ "DOC_TAG" "" /\
     int (environ_get environ "PUB_INTVL" "") = Some (pub_intvl config) /\
     int (environ_get environ "GPIO_PIN" "") = Some (gpio_pin config) /\
     sensor config = SENSOR /\
     es_host config <> "" /\ es_index config <> "" /\ doc_tag config <> "").
Proof.
  unfold get_config, logging_error, logging_exception, load_local. intros Hx.
  config_tests; walk Hx; try discriminate Hx;
    apply cut_of_returned in Hx as [_ Hx]; try discriminate Hx;
    injection Hx as <- <-; auto.
  right. split; [reflexivity|]. eexists. split; [reflexivity|]. cbn. auto 12.
Qed.

Lemma get_config_raised environ tr x :
  exec (get_config environ) tr (Raised x) ->
  x = UnboundLocalError /\ tr = [] /\ port_handler_reached environ.
Proof.
  unfold get_config, logging_error, logging_exception, load_local. intros Hx.
  config_tests; walk Hx; try discriminate Hx;
    apply cut_of_raised in Hx as [Ht Hx]; try discriminate Hx.
  all: injection Hx as <-; repeat split; assumption.
Qed.

Lemma get_config_port_handler environ :
  port_handler_reached environ ->
  exec (get_config environ) [] (Raised UnboundLocalError) /\
  forall tr r, ~ exec (get_config environ) tr (Returned r).
Proof.
  intros (Hh & Hp & Hi). unfold get_config, load_local.
  destruct (String.eqb_spec (environ_get environ "ES_HOST" "") "") as [?|_];
    [contradiction|].
  destruct (String.eqb_spec (environ_get environ "ES_PORT" "") "") as [?|_];
    [contradiction|].
  rewrite Hi. split.
  - apply exec_bind_raise. left; auto.
  - intros tr r Hx. apply exec_bind_raise, cut_of_returned in Hx as [_ Hx].
    discriminate Hx.
Qed.

Lemma get_config_stops environ :
  exists tr o, exec (get_config environ) tr o /\ o <> Running.
Proof.
  unfold get_config, logging_error, logging_exception, load_local.
  config_tests;
    first
      [ eexists [_], (Returned _); split; [|discriminate];
        apply (exec_call (Log _ _ _) _ tt), exec_ret; reflexivity
      | eexists [], (Returned _); split; [|discriminate];
        apply exec_ret; reflexivity
      | eexists [], (Raised _); split; [|discriminate];
        apply exec_bind_raise; left; auto ].
Qed.

Lemma get_config_success_vars environ tr rc config :
  exec (get_config environ) tr (Returned (rc, Some config)) ->
  forall v, In v required -> environ_get environ v "" <> "".
Proof.
  intros Hx. apply get_config_returned in Hx as [[_ Hx]|[_ Hx]]; [discriminate Hx|].
  destruct Hx as (c & _ & Hh & Hp & Hi & Hd & Hn & Hg & _ & Nh & Ni & Nd).
  assert (Hint : forall s z, int s = Some z -> s <> "").
  { intros s z Hs ->. rewrite int_empty in Hs. discriminate Hs. }
  intros v Hv. repeat (destruct Hv as [<-|Hv]); try congruence; eauto.
Qed.

Lemma get_config_success_ints environ tr rc config :
  exec (get_config environ) tr (Returned (rc, Some config)) ->
  forall v, In v numeric -> int (environ_get environ v "") <> None.
Proof.
  intros Hx. apply get_config_returned in Hx as [[_ Hx]|[_ Hx]]; [discriminate Hx|].
  destruct Hx as (c & _ & Hh & Hp & Hi & Hd & Hn & Hg & _).
  intros v Hv. repeat (destruct Hv as [<-|Hv]); [congruence..|destruct Hv].
Qed.

(** Unless the handler of a malformed ES_PORT is reached, a variable that
    is missing, blank or not a number makes [get_config] return
    (1, None). *)
Lemma get_config_rejects environ :
  (exists v, In v required /\ environ_get environ v "" = "") \/
  (exists v, In v numeric /\ int (environ_get environ v "") = None) ->
  ~ port_handler_reached environ ->
  exists tr, exec (get_config environ) tr (Returned (1, None)).
Proof.
  intros Hbad Hport.
  destruct (get_config_stops environ) as (tr & [[rc app_cfg]|x|] & Hx & Ho).
  - exists tr. destruct app_cfg as [config|].
    + exfalso. destruct Hbad as [(v & Hv & Eq)|(v & Hv & Eq)].
      * exact (get_config_success_vars _ _ _ _ Hx v Hv Eq).
      * exact (get_config_success_ints _ _ _ _ Hx v Hv Eq).
    + apply get_config_returned in Hx as Hr.
      destruct Hr as [[-> _]|[_ (c & Hc & _)]]; [exact Hx|discriminate Hc].
  - apply get_config_raised in Hx as (_ & _ & Hx). contradiction.
  - contradiction.
Qed.

(** ** The process *)

Lemma main_after_failure environ tr :
  exec (get_config environ) tr (Returned (1, None)) ->
  exec (main environ) (tr ++ [ELog ERROR "failed to get config" []]) (Returned 1).
Proof.
  intros Hx. unfold main. eapply exec_bind_returned; [exact Hx|]. cbn.
  unfold logging_error. apply (exec_call (Log _ _ _) _ tt), exec_ret. reflexivity.
Qed.

Lemma main_after_raise environ tr x :
  exec (get_config environ) tr (Raised x) -> exec (main environ) tr (Raised x).
Proof. intros Hx. unfold main. apply exec_bind_raised, Hx. Qed.

Lemma main_inv environ tr o :
  exec (main environ) tr o ->
  (o = Running /\ exec (get_config environ) tr Running) \/
  (exists x, o = Raised x /\ exec (get_config environ) tr (Raised x)) \/
  (exists tr1,
     exec (get_config environ) tr1 (Returned (1, None)) /\
     cut_of (tr1 ++ [ELog ERROR "failed to get config" []]) (Returned 1) tr o) \/
  (exists tr1 config tr2,
     tr = tr1 ++ tr2 /\
     exec (get_config environ) tr1 (Returned (0, Some config)) /\
     exec (run config) tr2 o).
Proof.
  unfold main. intros Hx.
  apply exec_bind_inv in Hx
    as [?|[?|(tr1 & [rc app_cfg] & tr2 & -> & Hc & Hx)]]; [auto|auto|].
  right; right.
  apply get_config_returned in Hc as Hr.
  destruct Hr as [[-> ->]|[-> (config & -> & _)]]; cbn in Hx.
  - left. exists tr1. split; [exact Hc|]. apply cut_of_app_r.
    unfold logging_error in Hx. walk Hx.
    + apply cut_of_nil.
    + apply (cut_of_cons (ELog ERROR "failed to get config" [])), Hx.
  - right. exists tr1, config, tr2. auto.
Qed.

End ConfigRuns.

(** ** Evaluation

    The statements without a [Builtins] argument are about the program
    run by [reference]. *)

#[local] Existing Instance reference.

Lemma garage_get_config :
  exec (get_config garage_environ) [] (Returned (0, Some garage_config)).
Proof. apply exec_ret. reflexivity. Qed.

(** ** Configuration loading *)

(** C10: whenever [get_config] hands back a configuration, its [sensor]
    field is the DHT22 constant, whatever the environment holds. *)
Theorem get_config_sensor_is_DHT22 `{Builtins} environ tr rc config :
  exec (get_config environ) tr (Returned (rc, Some config)) ->
  sensor config = Adafruit_DHT.DHT22.
Proof.
  intros Hx. apply get_config_returned in Hx as [[_ Hx]|[_ Hx]]; [discriminate Hx|].
  destruct Hx as (c & Hc & _ & _ & _ & _ & _ & _ & Hs & _).
  injection Hc as <-. exact Hs.
Qed.

Lemma get_config_sensor_is_DHT22_witness :
  exec (get_config garage_environ) [] (Returned (0, Some garage_config)) /\
  sensor garage_config = Adafruit_DHT.DHT22.
Proof.
  split; [exact garage_get_config|].
  exact (get_config_sensor_is_DHT22 garage_environ [] 0 garage_config garage_get_config).
Defined.

(** When [get_config] yields no configuration the process ends with
    status 1, through [sys.exit(1)] or through a traceback. *)
Lemma main_exit_status `{Builtins} environ :
  (forall tr config, ~ exec (get_config environ) tr (Returned (0, Some config))) ->
  (exists tr o, exec (main environ) tr o /\ exit_status o = Some 1) /\
  (forall tr o code, exec (main environ) tr o -> exit_status o = Some code -> code = 1).
Proof.
  intros Hno. split.
  - destruct (get_config_stops environ) as (tr & [[rc app_cfg]|x|] & Hx & Ho).
    + apply get_config_returned in Hx as Hr.
      destruct Hr as [[-> ->]|[-> (config & -> & _)]].
      * eexists _, _. split; [apply main_after_failure, Hx|reflexivity].
      * destruct (Hno _ _ Hx).
    + eexists _, _. split; [apply main_after_raise, Hx|reflexivity].
    + contradiction.
  - intros tr o code Hx Hs.
    apply main_inv in Hx
      as [[-> _]|[(x & -> & _)|[(tr1 & _ & Hc)|(tr1 & config & _ & _ & Hc & _)]]].
    + discriminate Hs.
    + injection Hs as <-. reflexivity.
    + destruct Hc as [[_ ->]|[_ ->]]; [injection Hs as <-; reflexivity|discriminate Hs].
    + destruct (Hno _ _ Hc).
Qed.

(** A required variable that is missing or blank leaves the process with
    exit status 1. *)
Lemma missing_variable_exit_status `{Builtins} environ v :
  In v required -> environ_get environ v "" = "" ->
  (exists tr o, exec (main environ) tr o /\ exit_status o = Some 1) /\
  (forall tr o code, exec (main environ) tr o -> exit_status o = Some code -> code = 1).
Proof.
  intros Hv Eq. apply main_exit_status. intros tr config Hx.
  exact (get_config_success_vars _ _ _ _ Hx v Hv Eq).
Qed.

(** So does a numeric variable that does not parse. *)
Lemma malformed_variable_exit_status `{Builtins} environ v :
  In v numeric -> int (environ_get environ v "") = None ->
  (exists tr o, exec (main environ) tr o /\ exit_status o = Some 1) /\
  (forall tr o code, exec (main environ) tr o -> exit_status o = Some code -> code = 1).
Proof.
  intros Hv Eq. apply main_exit_status. intros tr config Hx.
  exact (get_config_success_ints _ _ _ _ Hx v Hv Eq).
Qed.

(** Where the handler of a malformed ES_PORT is reached, [main] dies of
    the [UnboundLocalError] before it has logged anything. *)
Lemma main_port_handler `{Builtins} environ :
  port_handler_reached environ ->
  exec (main environ) [] (Raised UnboundLocalError) /\
  forall tr o, exec (main environ) tr o ->
               tr = [] /\ (o = Running \/ o = Raised UnboundLocalError).
Proof.
  intros Hp. destruct (get_config_port_handler environ Hp) as [Hr Hn]. split.
  - apply main_after_raise, Hr.
  - intros tr o Hx.
    assert (Hpre : forall tr', exec (get_config environ) tr' Running -> tr' = []).
    { unfold get_config, load_local. destruct Hp as (Hh & Hq & Hi).
      destruct (String.eqb_spec (environ_get environ "ES_HOST" "") "") as [?|_];
        [contradiction|].
      destruct (String.eqb_spec (environ_get environ "ES_PORT" "") "") as [?|_];
        [contradiction|].
      rewrite Hi. intros tr' Hx'.
      apply exec_bind_raise, cut_of_prefix, prefix_nil_inv in Hx'. exact Hx'. }
    apply main_inv in Hx
      as [[-> Hc]|[(x & -> & Hc)|[(tr1 & Hc & _)|(tr1 & config & _ & _ & Hc & _)]]].
    + split; [apply Hpre, Hc|auto].
    + apply get_config_raised in Hc as (-> & -> & _). auto.
    + destruct (Hn _ _ Hc).
    + destruct (Hn _ _ Hc).
Qed.

Lemma bare_environ_handler : port_handler_reached bare_environ.
Proof. repeat split; vm_compute; discriminate. Qed.

Lemma abc_port_environ_handler : port_handler_reached abc_port_environ.
Proof. repeat split; vm_compute; discriminate. Qed.

Lemma tcp_port_environ_handler : port_handler_reached tcp_port_environ.
Proof. repeat split; vm_compute; discriminate. Qed.

(** C1, at ES_HOST=localhost, ES_PORT=abc and nothing else set: ES_INDEX
    is missing, yet [get_config] does not return (1, None), it raises
    [UnboundLocalError] out of the handler of the malformed port; the
    process still ends with status 1. *)
Theorem missing_index_behind_malformed_port :
  environ_get bare_environ "ES_INDEX" "" = "" /\
  exec (get_config bare_environ) [] (Raised UnboundLocalError) /\
  (forall tr r, ~ exec (get_config bare_environ) tr (Returned r)) /\
  exec (main bare_environ) [] (Raised UnboundLocalError) /\
  exit_status (Raised UnboundLocalError) = Some 1.
Proof.
  split; [reflexivity|].
  destruct (get_config_port_handler _ bare_environ_handler) as [Hr Hn].
  destruct (main_port_handler _ bare_environ_handler) as [Hm _].
  auto.
Qed.

(** The sibling handlers do what the claim says: at a complete
    environment whose PUB_INTVL is "abc", [get_config] logs the value and
    returns (1, None), and [main] logs and leaves through [sys.exit(1)]. *)
Lemma malformed_interval_exits :
  exec (get_config abc_interval_environ)
       [ELog ERROR "invalid value for PUB_INTVL: {}" [VStr "abc"]]
       (Returned (1, None)) /\
  exec (main abc_interval_environ)
       [ELog ERROR "invalid value for PUB_INTVL: {}" [VStr "abc"];
        ELog ERROR "failed to get config" []]
       (Returned 1).
Proof.
  assert (Hx : exec (get_config abc_interval_environ)
                 [ELog ERROR "invalid value for PUB_INTVL: {}" [VStr "abc"]]
                 (Returned (1, None))).
  { apply (exec_call (Log _ _ _) _ tt), exec_ret. reflexivity. }
  split; [exact Hx|]. exact (main_after_failure _ _ Hx).
Qed.

(** C2, at a complete environment whose ES_PORT is "abc": the value is
    not empty and does not parse, yet [get_config] does not fail with a
    code, it raises [UnboundLocalError] out of its handler, before any
    log; [main] gets no code to test, logs nothing and never reaches its
    [sys.exit(1)]. *)
Theorem malformed_port_skips_exit :
  environ_get abc_port_environ "ES_PORT" "" <> "" /\
  int (environ_get abc_port_environ "ES_PORT" "") = None /\
  exec (get_config abc_port_environ) [] (Raised UnboundLocalError) /\
  (forall tr r, ~ exec (get_config abc_port_environ) tr (Returned r)) /\
  (forall tr o, exec (main abc_port_environ) tr o ->
                tr = [] /\ (o = Running \/ o = Raised UnboundLocalError)).
Proof.
  split; [vm_compute; discriminate|]. split; [reflexivity|].
  destruct (get_config_port_handler _ abc_port_environ_handler) as [Hr Hn].
  destruct (main_port_handler _ abc_port_environ_handler) as [_ Hm].
  auto.
Qed.

(** C6, at a complete environment whose ES_PORT is "9200/tcp":
    [get_config] returns neither a failure without configuration nor a
    success with one, it raises. *)
Theorem get_config_neither_fails_nor_succeeds :
  exec (get_config tcp_port_environ) [] (Raised UnboundLocalError) /\
  ~ (exists tr rc, rc <> 0 /\ exec (get_config tcp_port_environ) tr (Returned (rc, None))) /\
  ~ (exists tr config, exec (get_config tcp_port_environ) tr (Returned (0, Some config))).
Proof.
  destruct (get_config_port_handler _ tcp_port_environ_handler) as [Hr Hn].
  split; [exact Hr|]. split.
  - intros (tr & rc & _ & Hx). exact (Hn _ _ Hx).
  - intros (tr & config & Hx). exact (Hn _ _ Hx).
Qed.

(** ** The sensor reader *)

(** C9: whatever the driver answers, [read_sensor] returns and never
    raises; it makes one driver call and reads the clock after it; the
    code is 0, with the humidity and the temperature of the driver and
    that clock value, exactly when the driver gave both values, and is
    not 0 when either is [None]. *)
Theorem read_sensor_contract `{Builtins} sensor gpio_pin :
  (forall reply now, exists tr r,
      exec (read_sensor sensor gpio_pin) tr (Returned r) /\
      In (ERead sensor gpio_pin reply) tr /\ In (ENow now) tr) /\
  (forall tr rc hum temp ts,
      exec (read_sensor sensor gpio_pin) tr (Returned (rc, hum, temp, ts)) ->
      exists reply lg1 lg2,
        tr = [lg1; ERead sensor gpio_pin reply; lg2; ENow ts] /\
        match reply with
        | (Some h, Some t) => rc = 0 /\ hum = Float h /\ temp = Float t
        | _ => rc <> 0
        end) /\
  (forall tr x, ~ exec (read_sensor sensor gpio_pin) tr (Raised x)).
Proof.
  split; [|split].
  - intros reply now. eexists _, _. split; [apply exec_read_sensor_full|].
    unfold read_sensor_events.
    split; [right; left; reflexivity|do 3 right; left; reflexivity].
  - intros tr rc hum temp ts Hx.
    apply exec_read_sensor in Hx as (reply & now & Hx).
    apply cut_of_returned in Hx as [-> Hx]. injection Hx as Hx.
    unfold read_sensor_events.
    destruct reply as [[h|] [t|]]; cbn in Hx; injection Hx as <- <- <- <-;
      eexists (_, _), _, _; (split; [reflexivity|]); cbn; auto; discriminate.
  - intros tr x Hx.
    apply exec_read_sensor in Hx as (reply & now & Hx).
    apply cut_of_raised in Hx as [_ Hx]. discriminate Hx.
Qed.

Lemma read_sensor_contract_witness :
  exec (read_sensor 22 4)
       (read_sensor_events 22 4 (Some 55.2%float, Some 21.3%float) noon)
       (Returned (0, Float 55.2, Float 21.3, noon)) /\
  exists reply lg1 lg2,
    read_sensor_events 22 4 (Some 55.2%float, Some 21.3%float) noon
      = [lg1; ERead 22 4 reply; lg2; ENow noon] /\
    match reply with
    | (Some h, Some t) => 0 = 0 /\ Float 55.2 = Float h /\ Float 21.3 = Float t
    | _ => 0 <> 0
    end.
Proof.
  split; [apply exec_read_sensor_full|].
  apply (proj1 (proj2 (read_sensor_contract 22 4))), exec_read_sensor_full.
Defined.

(** ** The loop controller *)

Lemma follow_app intvl ph tr1 tr2 ph1 :
  follow intvl ph tr1 = Some ph1 ->
  follow intvl ph (tr1 ++ tr2) = follow intvl ph1 tr2.
Proof.
  revert ph. induction tr1 as [|ev tr1 IH]; intros ph; cbn.
  - intros [= ->]. reflexivity.
  - destruct (advance intvl ph ev) as [ph'|]; [apply IH|discriminate].
Qed.

Lemma follow_prefix intvl ph tr tr' :
  is_Some (follow intvl ph tr) -> tr' `prefix_of` tr ->
  is_Some (follow intvl ph tr').
Proof.
  intros Hs [k ->]. revert ph Hs.
  induction tr' as [|ev tr' IH]; intros ph; cbn.
  - eauto.
  - destruct (advance intvl ph ev) as [ph'|]; [apply IH|intros [? [=]]].
Qed.

Lemma follow_pass `{Builtins} config es reply now answer :
  follow (pub_intvl config) WAIT (pass_events config es reply now answer)
  = Some WAIT.
Proof.
  unfold pass_events, read_sensor_events, pass_tail, publish_events. cbn.
  rewrite Z.eqb_refl.
  destruct reply as [[h|] [t|]]; cbn; try reflexivity.
  destruct (not_created answer); reflexivity.
Qed.

Lemma follow_loop `{Builtins} config es tr (o : outcome Z) :
  exec_loop (iteration config es) tr o ->
  is_Some (follow (pub_intvl config) WAIT tr).
Proof.
  destruct (sleep_accepts (pub_intvl config)) eqn:Ha.
  - induction 1 as [tr Hb|tr x Hb|tr1 r tr2 o Hb Hl IH].
    + apply (exec_iteration _ _ _ _ Ha) in Hb as (reply & now & answer & Hb).
      eapply follow_prefix; [|eapply cut_of_prefix, Hb].
      rewrite follow_pass. eauto.
    + apply (exec_iteration _ _ _ _ Ha) in Hb as (reply & now & answer & Hb).
      apply cut_of_raised in Hb as [_ Hb]. discriminate Hb.
    + apply (exec_iteration _ _ _ _ Ha) in Hb as (reply & now & answer & Hb).
      apply cut_of_returned in Hb as [-> _].
      rewrite (follow_app _ _ _ _ _ (follow_pass _ _ _ _ _)). exact IH.
  - induction 1 as [tr Hb|tr x Hb|tr1 r tr2 o Hb Hl IH];
      apply (exec_iteration_rejected _ _ _ _ Ha) in Hb.
    + apply cut_of_prefix, prefix_nil_inv in Hb as ->. cbn. eauto.
    + apply cut_of_raised in Hb as [-> _]. cbn. eauto.
    + apply cut_of_returned in Hb as [_ Hb]. discriminate Hb.
Qed.

(** C7: every run of [run] is a path of the controller
    INIT, WAIT, READ, PUBLISH: a sensor read comes only after a sleep of
    the configured interval in the same pass, a document is sent only
    after the read of the same pass has succeeded, and after a successful
    read nothing but the publish comes next. *)
Theorem run_follows_controller `{Builtins} config tr o :
  exec (run config) tr o ->
  is_Some (follow (pub_intvl config) INIT tr).
Proof.
  intros Hx. apply exec_run_inv in Hx as [[Hp _]|(tr' & -> & Hl & _)].
  - eapply follow_prefix; [|exact Hp]. cbn. eauto.
  - rewrite (follow_app _ _ _ _ WAIT) by reflexivity.
    eapply follow_loop, Hl.
Qed.

(** ** Where a call lies in a run *)

Lemma app_eq_mid {A} (a b c d : list A) x :
  a ++ b = c ++ x :: d ->
  (exists d', a = c ++ x :: d' /\ d = d' ++ b) \/
  (exists c', c = a ++ c' /\ b = c' ++ x :: d).
Proof.
  revert c. induction a as [|y a IH]; intros c E.
  - right. exists c. auto.
  - destruct c as [|z c]; cbn in E; injection E as -> E.
    + left. exists a. auto.
    + destruct (IH c E) as [(d' & -> & ->)|(c' & -> & ->)].
      * left. exists d'. auto.
      * right. exists c'. auto.
Qed.

(** Every call of a run of a loop lies in one pass: [p1] is what the pass
    did before it and [p2] what it did after it, all there is of the run
    unless the pass returned. *)
Lemma exec_loop_occurrence {A S} (body : itree ioE A) tr (o : outcome S)
    pre ev post :
  exec_loop body tr o -> tr = pre ++ ev :: post ->
  exists pre0 p1 p2 (o' : outcome A),
    pre = pre0 ++ p1 /\ exec body (p1 ++ ev :: p2) o' /\
    (p2 = post \/ (p2 `prefix_of` post /\ exists r, o' = Returned r)).
Proof.
  intros Hl. revert pre.
  induction Hl as [tr Hb|tr x Hb|tr1 r tr2 o Hb Hl IH]; intros pre E.
  - subst tr. exists [], pre, post, Running. auto.
  - subst tr. exists [], pre, post, (Raised x). auto.
  - apply app_eq_mid in E as [(d' & -> & ->)|(c' & -> & E)].
    + exists [], pre, d', (Returned r). repeat split; [exact Hb|].
      right. split; [apply prefix_app_r; reflexivity|eauto].
    + destruct (IH c' E) as (pre0 & p1 & p2 & o' & -> & Hp & Hq).
      exists (tr1 ++ pre0), p1, p2, o'. rewrite app_assoc. auto.
Qed.

Lemma exec_run_occurrence `{Builtins} config tr o pre ev post :
  exec (run config) tr o -> tr = pre ++ ev :: post ->
  In ev (run_prelude config) \/
  exists pre0 p1 p2 reply now answer,
    pre = pre0 ++ p1 /\
    (p1 ++ ev :: p2) `prefix_of`
      pass_events config (connect config) reply now answer /\
    (p2 = post \/
     (p2 `prefix_of` post /\
      p1 ++ ev :: p2 = pass_events config (connect config) reply now answer)).
Proof.
  intros Hx E. apply exec_run_inv in Hx as [[Hp _]|(tr' & -> & Hl & _)].
  - left. destruct Hp as [k Ek]. rewrite E in Ek.
    rewrite Ek, <- app_assoc. apply in_elt.
  - apply app_eq_mid in E as [(d' & E & _)|(c' & -> & E)].
    + left. rewrite E. apply in_elt.
    + right.
      destruct (exec_loop_occurrence _ _ _ _ _ _ Hl E)
        as (pre0 & p1 & p2 & o' & -> & Hb & Hq).
      destruct (sleep_accepts (pub_intvl config)) eqn:Ha.
      * apply (exec_iteration _ _ _ _ Ha) in Hb as (reply & now & answer & Hb).
        exists (run_prelude config ++ pre0), p1, p2, reply, now, answer.
        rewrite app_assoc. split; [reflexivity|].
        split; [eapply cut_of_prefix, Hb|].
        destruct Hq as [->|[Hp (r & ->)]]; [auto|].
        right. apply cut_of_returned in Hb as [Hb _]. auto.
      * apply (exec_iteration_rejected _ _ _ _ Ha), cut_of_prefix, prefix_nil_inv
          in Hb.
        destruct p1; discriminate Hb.
Qed.

(** ** The document *)

Lemma dict_reading_of config h t ts :
  dict (reading_of config h t ts) = document h t ts (doc_tag config).
Proof.
  unfold dict, document, reading_of. cbn.
  do 2 f_equal.
Qed.

(** Finds the place of a call in the calls of one pass. *)
Ltac locate :=
  repeat match goal with
         | E : _ = (?p ++ _ :: _) ++ _ |- _ =>
             is_var p; destruct p; cbn in E; simplify_eq
         | E : ?p ++ _ :: _ = _ |- _ =>
             is_var p; destruct p; cbn in E; simplify_eq
         end.

(** C3: in every run, a document goes to the store only right after a
    successful read and the clock value taken after it, and is then
    exactly [{hum_rh: h, temp_c: t, location: tag, timestamp: ts}], sent
    to the configured index; and after a successful read and its clock
    value nothing else than that document follows. *)
Theorem document_of_successful_read `{Builtins} config tr o :
  exec (run config) tr o ->
  (forall pre es idx ty body answer post,
      tr = pre ++ EIndex es idx ty body answer :: post ->
      exists pre' h t lg ts,
        pre = pre' ++ [ERead (sensor config) (gpio_pin config) (Some h, Some t);
                       lg; ENow ts] /\
        es = connect config /\ idx = es_index config /\ ty = "sensor_data" /\
        body = document h t ts (doc_tag config)) /\
  (forall pre s p h t lg ts ev post,
      tr = pre ++ ERead s p (Some h, Some t) :: lg :: ENow ts :: ev :: post ->
      exists answer,
        ev = EIndex (connect config) (es_index config) "sensor_data"
                    (document h t ts (doc_tag config)) answer).
Proof.
  intros Hx. split.
  - intros pre es idx ty body answer post E.
    destruct (exec_run_occurrence _ _ _ _ _ _ Hx E)
      as [Hin|(pre0 & p1 & p2 & reply & now & ans & -> & [k Ek] & _)].
    { cbn in Hin. destruct Hin as [Hin|[Hin|[]]]; discriminate Hin. }
    unfold pass_events, read_sensor_events, pass_tail, publish_events in Ek.
    destruct reply as [[h|] [t|]]; destruct (not_created ans); cbn in Ek; locate.
    all: exists (pre0 ++ [ESleep (pub_intvl config); ELog DEBUG "reading sensor" []]),
           h, t; eexists _, now.
    all: rewrite <- dict_reading_of, <- app_assoc; repeat split.
  - intros pre s p h t lg ts ev post E.
    destruct (exec_run_occurrence _ _ _ _ _ _ Hx E)
      as [Hin|(pre0 & p1 & p2 & reply & now & ans & -> & [k Ek] & Hq)].
    { cbn in Hin. destruct Hin as [Hin|[Hin|[]]]; discriminate Hin. }
    unfold pass_events, read_sensor_events, pass_tail, publish_events in *.
    destruct reply as [[h'|] [t'|]]; destruct (not_created ans);
      destruct Hq as [->|[[k' Ek'] Eq]]; cbn -[dict] in *; locate;
      cbn -[dict] in *; locate;
      repeat (progress (cbn -[dict] in *; simplify_eq));
      rewrite dict_reading_of; eauto.
Qed.

(** ** Failures inside the loop *)

Lemma not_created_spec (answer : gmap string pyval) :
  not_created answer = true <-> answer !! "result" <> Some (VStr "created").
Proof.
  unfold not_created.
  destruct (answer !! "result") as [[| | |s| |]|]; cbn;
    try (split; [discriminate|reflexivity]).
  destruct (String.eqb_spec s "created") as [->|Hs]; cbn.
  - split; [discriminate|]. intros Hn. destruct Hn. reflexivity.
  - split; [|reflexivity]. intros _ [= E]. contradiction.
Qed.

Lemma In_prefix {A} (x : A) (l1 l2 : list A) :
  l1 `prefix_of` l2 -> In x l1 -> In x l2.
Proof. intros [k ->] Hx. apply in_or_app. auto. Qed.

(** After a pass that returned, the loop is where it started. *)
Lemma exec_forever_next {A S} (body : itree ioE A) tr r more
    (o : outcome S) :
  exec body tr (Returned r) ->
  exec (ITree.forever body) more o ->
  exec (ITree.forever body) (tr ++ more) o.
Proof.
  intros Hb Hm. apply exec_forever_intro. eapply loop_next; [exact Hb|].
  apply exec_forever_inv, Hm.
Qed.

Lemma iteration_sleeps `{Builtins} config es :
  sleep_accepts (pub_intvl config) = true ->
  exec (iteration config es) [ESleep (pub_intvl config)] Running.
Proof.
  intros Ha.
  eapply exec_prefix;
    [apply (exec_iteration_full config es (None, None) noon ∅ Ha)|].
  apply prefix_cons, prefix_nil.
Qed.

Lemma iteration_ran_accepted `{Builtins} config es tr o ev :
  exec (iteration config es) tr o -> In ev tr ->
  sleep_accepts (pub_intvl config) = true.
Proof.
  intros Hx Hin. destruct (sleep_accepts (pub_intvl config)) eqn:Ha; [reflexivity|].
  apply (exec_iteration_rejected _ _ _ _ Ha), cut_of_prefix, prefix_nil_inv in Hx.
  subst tr. destruct Hin.
Qed.

(** The one driver call of a pass, and the calls of a pass whose read
    failed. *)
Lemma pass_events_read `{Builtins} config es reply' now answer s p reply :
  In (ERead s p reply) (pass_events config es reply' now answer) ->
  reply = reply'.
Proof.
  unfold pass_events, read_sensor_events, pass_tail, publish_events.
  intros Hin.
  destruct reply' as [[h|] [t|]]; try destruct (not_created answer);
    cbn in Hin; decompose [or False] Hin; simplify_eq; reflexivity.
Qed.

Lemma pass_events_quiet `{Builtins} config es reply now answer ev :
  read_ok reply = false ->
  In ev (pass_events config es reply now answer) -> is_index ev = false.
Proof.
  unfold pass_events, read_sensor_events, pass_tail. intros Hbad Hin.
  destruct reply as [[h|] [t|]]; try discriminate Hbad;
    cbn in Hin; decompose [or False] Hin; subst; reflexivity.
Qed.

(** C4: in a pass of the loop whose sensor read failed, no document is
    sent and no reading is built (the pass returns [None]); the pass does
    not raise, it runs to its end without sending anything, and the next
    call of the loop is the sleep of the next pass. *)
Theorem sensor_failure_skips_publish `{Builtins} config es tr o s p reply :
  exec (iteration config es) tr o ->
  In (ERead s p reply) tr ->
  reply.1 = None \/ reply.2 = None ->
  (forall ev, In ev tr -> is_index ev = false) /\
  (forall r, o = Returned r -> r = None) /\
  (forall x, o <> Raised x) /\
  exists rest,
    exec (iteration config es) (tr ++ rest) (Returned None) /\
    (forall ev, In ev rest -> is_index ev = false) /\
    exec (ITree.forever (iteration config es) : itree ioE unit)
         (tr ++ rest ++ [ESleep (pub_intvl config)]) Running.
Proof.
  intros Hx Hin Hfail.
  pose proof (iteration_ran_accepted _ _ _ _ _ Hx Hin) as Ha.
  apply (exec_iteration _ _ _ _ Ha) in Hx as (reply' & now & answer & Hc).
  pose proof (cut_of_prefix _ _ _ _ Hc) as Hp.
  apply (In_prefix _ _ _ Hp), pass_events_read in Hin as <-.
  pose proof (exec_iteration_full config es reply now answer Ha) as Hfull.
  assert (Hbad : read_ok reply = false).
  { destruct reply as [[h|] [t|]]; try reflexivity.
    destruct Hfail as [Hf|Hf]; discriminate Hf. }
  assert (Hnone : pass_result config reply now = None).
  { destruct reply as [[h|] [t|]]; try discriminate Hbad; reflexivity. }
  rewrite Hnone in *. split; [|split; [|split]].
  - intros ev He. eapply pass_events_quiet, (In_prefix _ _ _ Hp), He. exact Hbad.
  - intros r ->. apply cut_of_returned in Hc as [_ Hc]. congruence.
  - intros x ->. apply cut_of_raised in Hc as [_ Hc]. discriminate Hc.
  - destruct Hp as [rest Erest]. exists rest. rewrite <- Erest.
    split; [exact Hfull|]. split.
    + intros ev He. eapply pass_events_quiet; [exact Hbad|].
      rewrite Erest. apply in_or_app. eauto.
    + rewrite app_assoc, <- Erest.
      eapply exec_forever_next; [exact Hfull|].
      apply exec_forever_intro, loop_running, iteration_sleeps, Ha.
Qed.

Lemma pass_events_index `{Builtins} config es reply now answer
    es' idx ty body answer' :
  In (EIndex es' idx ty body answer') (pass_events config es reply now answer) ->
  read_ok reply = true /\ answer' = answer /\
  length (filter (fun ev => is_index ev = true)
                 (pass_events config es reply now answer)) = 1%nat.
Proof.
  unfold pass_events, read_sensor_events, pass_tail, publish_events.
  intros Hin.
  destruct reply as [[h|] [t|]]; try destruct (not_created answer);
    cbn in Hin; decompose [or False] Hin; simplify_eq; auto.
Qed.

Lemma count_index_In ev (l : list event) :
  In ev l -> is_index ev = true ->
  (1 <= length (filter (fun ev => is_index ev = true) l))%nat.
Proof.
  intros Hin Hi. induction l as [|ev' l IH]; [destruct Hin|].
  destruct Hin as [->|Hin]; cbn.
  - rewrite decide_True by exact Hi. cbn. lia.
  - destruct (decide (is_index ev' = true)); cbn; [lia|auto].
Qed.

(** C5: when the store's answer has a result other than "created",
    [publish_data] returns 1; in a pass that got this answer nothing
    is raised and the send is not repeated, the pass runs to its end with
    the reading it built, and whatever the loop can do from its start it
    can do after that pass, the next sleep first. *)
Theorem publish_failure_is_ignored `{Builtins} answer :
  answer !! "result" <> Some (VStr "created") ->
  (forall es idx data,
      (exists tr, exec (publish_data es idx data) tr (Returned 1) /\
                  In (EIndex es idx "sensor_data" (dict data) answer) tr) /\
      (forall tr r,
          exec (publish_data es idx data) tr (Returned r) ->
          In (EIndex es idx "sensor_data" (dict data) answer) tr -> r = 1)) /\
  (forall config es tr o es' idx ty body,
      exec (iteration config es) tr o ->
      In (EIndex es' idx ty body answer) tr ->
      (forall x, o <> Raised x) /\
      length (filter (fun ev => is_index ev = true) tr) = 1%nat /\
      exists rest reading,
        exec (iteration config es) (tr ++ rest) (Returned (Some reading)) /\
        (forall ev, In ev rest -> is_index ev = false) /\
        (forall more (o' : outcome unit),
            exec (ITree.forever (iteration config es)) more o' ->
            exec (ITree.forever (iteration config es)) (tr ++ rest ++ more) o') /\
        exec (ITree.forever (iteration config es) : itree ioE unit)
             (tr ++ rest ++ [ESleep (pub_intvl config)]) Running).
Proof.
  intros Hbad. apply not_created_spec in Hbad. split.
  - intros es idx data. split.
    + exists (publish_events es idx data answer). split; [|left; reflexivity].
      replace 1 with (publish_result answer)
        by (unfold publish_result; rewrite Hbad; reflexivity).
      apply exec_publish_data_full.
    + intros tr r Hp Hi.
      apply exec_publish_data in Hp as (answer' & Hp).
      apply cut_of_returned in Hp as [-> Hp]. injection Hp as <-.
      unfold publish_events in Hi. unfold publish_result.
      destruct (not_created answer') eqn:Hn; [reflexivity|].
      cbn in Hi. decompose [or False] Hi. simplify_eq. congruence.
  - intros config es tr o es' idx ty body Hx Hin.
    pose proof (iteration_ran_accepted _ _ _ _ _ Hx Hin) as Ha.
    apply (exec_iteration _ _ _ _ Ha) in Hx as (reply & now & answer' & Hc).
    pose proof (cut_of_prefix _ _ _ _ Hc) as Hp.
    pose proof (In_prefix _ _ _ Hp Hin) as Hfull.
    apply pass_events_index in Hfull as (Hok & <- & Hone).
    pose proof (exec_iteration_full config es reply now answer Ha) as Hpass.
    destruct reply as [[h|] [t|]]; try discriminate Hok. cbn in Hpass.
    destruct Hp as [rest Erest]. rewrite Erest in Hone.
    rewrite filter_app, length_app in Hone.
    pose proof (count_index_In _ _ Hin eq_refl) as Hpos.
    split; [|split; [lia|]].
    + intros x ->. apply cut_of_raised in Hc as [_ Hc]. discriminate Hc.
    + exists rest, (reading_of config h t now).
      rewrite <- Erest. split; [exact Hpass|]. split; [|split].
      * intros ev He. destruct (is_index ev) eqn:Hi; [|reflexivity].
        pose proof (count_index_In _ _ He Hi). lia.
      * intros more o' Hm. rewrite app_assoc, <- Erest.
        eapply exec_forever_next; [exact Hpass|exact Hm].
      * rewrite app_assoc, <- Erest.
        eapply exec_forever_next; [exact Hpass|].
        apply exec_forever_intro, loop_running, iteration_sleeps, Ha.
Qed.

(** ** How the loop is left *)

(** [return 0] is out of reach, whatever the configuration. *)
Lemma run_never_returns `{Builtins} config tr r :
  ~ exec (run config) tr (Returned r).
Proof.
  intros Hx.
  apply exec_run_inv in Hx as [[_ [Hx|(x & Hx & _)]]|(tr' & _ & Hl & _)].
  - discriminate Hx.
  - discriminate Hx.
  - exact (exec_loop_not_returned _ _ _ Hl).
Qed.

Lemma passes_cons config es reply now answer inputs :
  passes config es ((reply, now, answer) :: inputs)
  = pass_events config es reply now answer ++ passes config es inputs.
Proof. reflexivity. Qed.

Lemma exec_loop_passes_full `{Builtins} config es inputs :
  sleep_accepts (pub_intvl config) = true ->
  exec_loop (iteration config es) (passes config es inputs) (Running : outcome Z).
Proof.
  intros Ha. induction inputs as [|[[reply now] answer] inputs IH].
  - apply loop_running, exec_running.
  - rewrite passes_cons. eapply loop_next; [|exact IH].
    apply exec_iteration_full, Ha.
Qed.

Lemma exec_loop_passes `{Builtins} config es tr (o : outcome Z) :
  sleep_accepts (pub_intvl config) = true ->
  exec_loop (iteration config es) tr o ->
  exists inputs, tr `prefix_of` passes config es inputs.
Proof.
  intros Ha. induction 1 as [tr Hb|tr x Hb|tr1 r tr2 o Hb Hl IH];
    apply (exec_iteration _ _ _ _ Ha) in Hb as (reply & now & answer & Hb).
  - exists [(reply, now, answer)]. rewrite passes_cons.
    apply prefix_app_r. eapply cut_of_prefix, Hb.
  - apply cut_of_raised in Hb as [_ Hb]. discriminate Hb.
  - apply cut_of_returned in Hb as [-> _]. destruct IH as (inputs & Hp).
    exists ((reply, now, answer) :: inputs). rewrite passes_cons.
    apply prefix_app, Hp.
Qed.



(** With an interval that [time.sleep] refuses, the loop makes no call. *)
Lemma exec_loop_rejected `{Builtins} config es tr (o : outcome Z) :
  sleep_accepts (pub_intvl config) = false ->
  exec_loop (iteration config es) tr o ->
  tr = [] /\ (o = Running \/ o = Raised (sleep_error (pub_intvl config))).
Proof.
  intros Ha Hl.
  induction Hl as [tr Hb|tr x Hb|tr1 r tr2 o Hb Hl IH];
    apply (exec_iteration_rejected _ _ _ _ Ha) in Hb.
  - apply cut_of_prefix, prefix_nil_inv in Hb as ->. auto.
  - apply cut_of_raised in Hb as [-> [= ->]]. auto.
  - apply cut_of_returned in Hb as [_ Hb]. discriminate Hb.
Qed.

Lemma sleep_accepts_spec `{Builtins} secs :
  sleep_accepts secs = true <-> 0 <= secs <= sleep_max.
Proof.
  unfold sleep_accepts. rewrite andb_true_iff, !Z.leb_le. reflexivity.
Qed.


(** [get_config] takes PUB_INTVL=-1 for a configuration. *)
Lemma hasty_get_config :
  exec (get_config hasty_environ) [] (Returned (0, Some hasty_config)).
Proof. apply exec_ret. reflexivity. Qed.


(** ** A run in the garage *)

Lemma garage_pass_exec :
  exec (iteration garage_config garage_es) garage_pass
       (Returned (Some (reading_of garage_config humid warm noon))).
Proof. exact (exec_iteration_full garage_config garage_es _ noon _ eq_refl). Qed.

Lemma refused_pass_exec :
  exec (iteration garage_config garage_es) refused_pass
       (Returned (Some (reading_of garage_config humid warm noon))).
Proof. exact (exec_iteration_full garage_config garage_es _ noon _ eq_refl). Qed.

Lemma failed_pass_exec :
  exec (iteration garage_config garage_es) failed_pass (Returned None).
Proof. exact (exec_iteration_full garage_config garage_es _ noon _ eq_refl). Qed.

Lemma garage_run_exec : exec (run garage_config) garage_run Running.
Proof.
  apply exec_run; [reflexivity|].
  right. exists garage_pass. split; [reflexivity|].
  apply loop_running. eapply exec_prefix; [exact garage_pass_exec|reflexivity].
Qed.

(** The example of the specification: humidity 55.2, temperature 21.3,
    tag "garage". *)
Lemma garage_document :
  dict (reading_of garage_config humid warm noon)
  = document 55.2 21.3 noon "garage".
Proof. reflexivity. Qed.

Lemma document_of_successful_read_witness :
  exec (run garage_config) garage_run Running /\
  exists pre' h t lg ts,
    run_prelude garage_config ++
    [ESleep 60; ELog DEBUG "reading sensor" [];
     ERead 22 4 (Some humid, Some warm);
     ELog DEBUG "sensor data: RH: {}, Tc: {}" [VFloat humid; VFloat warm];
     ENow noon]
    = pre' ++ [ERead (sensor garage_config) (gpio_pin garage_config) (Some h, Some t);
               lg; ENow ts] /\
    garage_es = connect garage_config /\
    "temps" = es_index garage_config /\
    "sensor_data" = "sensor_data" /\
    document 55.2 21.3 noon "garage" = document h t ts (doc_tag garage_config).
Proof.
  split; [exact garage_run_exec|].
  exact (proj1 (document_of_successful_read garage_config garage_run Running
                  garage_run_exec)
           (run_prelude garage_config ++
            [ESleep 60; ELog DEBUG "reading sensor" [];
             ERead 22 4 (Some humid, Some warm);
             ELog DEBUG "sensor data: RH: {}, Tc: {}" [VFloat humid; VFloat warm];
             ENow noon])
           garage_es "temps" "sensor_data" (document 55.2 21.3 noon "garage")
           created_answer [] eq_refl).
Defined.

Lemma sensor_failure_skips_publish_witness :
  exec (iteration garage_config garage_es) failed_pass (Returned None) /\
  In (ERead 22 4 (None, None)) failed_pass /\
  ((@None float, @None float).1 = None \/ (@None float, @None float).2 = None) /\
  forall ev, In ev failed_pass -> is_index ev = false.
Proof.
  assert (Hin : In (ERead 22 4 (None, None)) failed_pass)
    by (right; right; left; reflexivity).
  split; [exact failed_pass_exec|]. split; [exact Hin|].
  split; [left; reflexivity|].
  exact (proj1 (sensor_failure_skips_publish garage_config garage_es failed_pass
                  (Returned None) 22 4 (None, None)
                  failed_pass_exec Hin (or_introl eq_refl))).
Defined.

Lemma publish_failure_is_ignored_witness :
  refused_answer !! "result" <> Some (VStr "created") /\
  (forall tr r,
      exec (publish_data garage_es "temps"
              (reading_of garage_config humid warm noon)) tr (Returned r) ->
      In (EIndex garage_es "temps" "sensor_data"
            (dict (reading_of garage_config humid warm noon)) refused_answer) tr ->
      r = 1) /\
  length (filter (fun ev => is_index ev = true) refused_pass) = 1%nat.
Proof.
  assert (Hbad : refused_answer !! "result" <> Some (VStr "created"))
    by (vm_compute; discriminate).
  assert (Hin : In (EIndex garage_es "temps" "sensor_data"
                      (document 55.2 21.3 noon "garage") refused_answer)
                   refused_pass)
    by (do 5 right; left; reflexivity).
  destruct (publish_failure_is_ignored refused_answer Hbad) as [Hpub Hloop].
  split; [exact Hbad|]. split.
  - exact (proj2 (Hpub garage_es "temps" (reading_of garage_config humid warm noon))).
  - exact (proj1 (proj2 (Hloop garage_config garage_es refused_pass _
                           garage_es "temps" "sensor_data" _
                           refused_pass_exec Hin))).
Defined.

Lemma run_follows_controller_witness :
  exec (run garage_config) garage_run Running /\
  is_Some (follow 60 INIT garage_run).
Proof.
  split; [exact garage_run_exec|].
  exact (run_follows_controller garage_config garage_run Running garage_run_exec).
Defined.


(** * Further properties *)

(** ** [get_config] *)

(** A run of [get_config] logs nothing, or one error; the message kept for
    an empty PUB_INTVL is not among those it can log. *)
Lemma get_config_calls `{Builtins} environ tr o :
  exec (get_config environ) tr o ->
  (tr = [] /\
   (o = Running \/ (exists config, o = Returned (0, Some config)) \/
    o = Raised UnboundLocalError)) \/
  (exists fmt args,
     tr = [ELog ERROR fmt args] /\ fmt <> "empty env value for PUB_INTVL" /\
     (o = Running \/ o = Returned (1, None))).
Proof.
  unfold get_config, logging_error, logging_exception, load_local. intros Hx.
  config_tests; try contradiction; walk Hx; auto;
    destruct Hx as [[-> ->]|[Hp ->]]; eauto 6;
    try (apply prefix_nil_inv in Hp as ->; auto);
    right; eexists _, _; (split; [reflexivity|]); (split; [discriminate|auto]).
Qed.

(** [get_config] on the environment that lacks PUB_INTVL. *)
Lemma no_interval_get_config :
  exec (get_config no_interval_environ)
       [ELog ERROR "invalid value for PUB_INTVL: {}" [VStr ""]]
       (Returned (1, None)).
Proof. apply (exec_call (Log _ _ _) _ tt), exec_ret. reflexivity. Qed.

(** X1: whatever the environment holds, [get_config] never logs
    "empty env value for PUB_INTVL"; when the four variables before it are
    in order and PUB_INTVL is unset or blank, it reports an invalid value
    of PUB_INTVL and returns (1, None). *)
Theorem blank_interval_reported_invalid `{Builtins} environ :
  (forall tr o args,
      exec (get_config environ) tr o ->
      ~ In (ELog ERROR "empty env value for PUB_INTVL" args) tr) /\
  (environ_get environ "ES_HOST" "" <> "" ->
   int (environ_get environ "ES_PORT" "") <> None ->
   environ_get environ "ES_INDEX" "" <> "" ->
   environ_get environ "DOC_TAG" "" <> "" ->
   environ_get environ "PUB_INTVL" "" = "" ->
   exec (get_config environ)
        [ELog ERROR "invalid value for PUB_INTVL: {}" [VStr ""]]
        (Returned (1, None))).
Proof.
  split.
  - intros tr o args Hx Hin.
    apply get_config_calls in Hx as [[-> _]|(fmt & a & -> & Hf & _)].
    + destruct Hin.
    + destruct Hin as [[= -> _]|[]]. contradiction.
  - intros Hh Hp Hi Hd Hv.
    unfold get_config, logging_error, logging_exception.
    destruct (String.eqb_spec (environ_get environ "ES_HOST" "") "") as [?|_];
      [contradiction|].
    destruct (String.eqb_spec (environ_get environ "ES_PORT" "") "") as [Ep|_].
    { rewrite Ep, int_empty in Hp. contradiction. }
    destruct (int (environ_get environ "ES_PORT" "")) as [port|];
      [|contradiction].
    destruct (String.eqb_spec (environ_get environ "ES_INDEX" "") "") as [?|_];
      [contradiction|].
    destruct (String.eqb_spec (environ_get environ "DOC_TAG" "") "") as [?|_];
      [contradiction|].
    rewrite Hv, int_empty.
    apply (exec_call (Log _ _ _) _ tt), exec_ret. reflexivity.
Qed.

Lemma blank_interval_reported_invalid_witness :
  environ_get no_interval_environ "PUB_INTVL" "" = "" /\
  exec (get_config no_interval_environ)
       [ELog ERROR "invalid value for PUB_INTVL: {}" [VStr ""]]
       (Returned (1, None)).
Proof.
  split; [reflexivity|].
  apply (proj2 (blank_interval_reported_invalid no_interval_environ));
    vm_compute; congruence.
Defined.

(** X2: [get_config] reports once and stops: when it ends, it has
    returned (1, None) after logging one error, or it has logged nothing
    and returned a configuration or raised. *)
Theorem get_config_reports_once `{Builtins} environ tr o :
  exec (get_config environ) tr o -> o <> Running ->
  (o = Returned (1, None) /\ exists fmt args, tr = [ELog ERROR fmt args]) \/
  (tr = [] /\
   ((exists config, o = Returned (0, Some config)) \/ o = Raised UnboundLocalError)).
Proof.
  intros Hx Ho.
  apply get_config_calls in Hx
    as [[-> [?|?]]|(fmt & args & -> & _ & [? | ->])]; try contradiction; eauto.
Qed.

Lemma get_config_reports_once_witness :
  exec (get_config no_interval_environ)
       [ELog ERROR "invalid value for PUB_INTVL: {}" [VStr ""]]
       (Returned (1, None)) /\
  (Returned (1, @None AppConfig) <> Running) /\
  ((Returned (1, @None AppConfig) = Returned (1, None) /\
    exists fmt args,
      [ELog ERROR "invalid value for PUB_INTVL: {}" [VStr ""]]
      = [ELog ERROR fmt args]) \/
   ([ELog ERROR "invalid value for PUB_INTVL: {}" [VStr ""]] = [] /\
    ((exists config, Returned (1, @None AppConfig) = Returned (0, Some config)) \/
     Returned (1, @None AppConfig) = Raised UnboundLocalError))).
Proof.
  pose proof no_interval_get_config as Hx.
  assert (Ho : Returned (1, @None AppConfig) <> Running) by discriminate.
  split; [exact Hx|]. split; [exact Ho|].
  exact (get_config_reports_once no_interval_environ _ _ Hx Ho).
Defined.

(** On an environment that holds [config], [get_config] is the program
    that returns it. *)
Lemma get_config_configured `{Builtins} environ config :
  configures environ config -> get_config environ = Ret (0, Some config).
Proof.
  intros (Hh & Nh & Np & Hp & Hi & Ni & Hd & Nd & Hn & Ng & Hg & Hs).
  unfold get_config.
  rewrite <- Hh, <- Hi, <- Hd, Hp, Hn, Hg.
  destruct (String.eqb_spec (es_host config) "") as [?|_]; [contradiction|].
  destruct (String.eqb_spec (environ_get environ "ES_PORT" "") "") as [?|_];
    [contradiction|].
  destruct (String.eqb_spec (es_index config) "") as [?|_]; [contradiction|].
  destruct (String.eqb_spec (doc_tag config) "") as [?|_]; [contradiction|].
  destruct (String.eqb_spec (environ_get environ "GPIO_PIN" "") "") as [?|_];
    [contradiction|].
  rewrite <- Hs. destruct config; reflexivity.
Qed.

(** X3: [get_config] returns 0 with [config], having logged nothing,
    exactly when the environment holds the four strings non-empty and the
    three numbers as [int] reads them; no range is checked. *)
Theorem get_config_succeeds_iff `{Builtins} environ tr config :
  exec (get_config environ) tr (Returned (0, Some config)) <->
  tr = [] /\ configures environ config.
Proof.
  split.
  - intros Hx.
    apply get_config_calls in Hx as Hc.
    apply get_config_returned in Hx as [[[=] _]|[_ Hx]].
    destruct Hx as (c & [= <-] & Hh & Hp & Hi & Hd & Hn & Hg & Hs & Nh & Ni & Nd).
    assert (Hint : forall s z, int s = Some z -> s <> "").
    { intros s z Hs' ->. rewrite int_empty in Hs'. discriminate Hs'. }
    split.
    + destruct Hc as [[-> _]|(fmt & args & _ & _ & [[=]|[=]])]. reflexivity.
    + repeat split; eauto.
  - intros [-> Hc]. rewrite (get_config_configured _ _ Hc).
    apply exec_ret. reflexivity.
Qed.

Lemma garage_configures : configures garage_environ garage_config.
Proof. repeat split; vm_compute; congruence. Qed.

Lemma get_config_succeeds_iff_witness :
  exec (get_config garage_environ) [] (Returned (0, Some garage_config)) /\
  configures garage_environ garage_config.
Proof.
  split; [exact garage_get_config|].
  exact (proj2 (proj1 (get_config_succeeds_iff garage_environ [] garage_config)
                  garage_get_config)).
Defined.

(** X4: [get_config] looks at the six variables only, and takes an unset
    variable for a blank one: environments that agree on
    [os.environ.get(v, "")] for the six give the same program. *)
Theorem get_config_reads_six `{Builtins} environ1 environ2 :
  (forall v, In v required ->
             environ_get environ1 v "" = environ_get environ2 v "") ->
  get_config environ1 = get_config environ2.
Proof.
  intros Hv. unfold get_config.
  rewrite (Hv "ES_HOST"), (Hv "ES_PORT"), (Hv "ES_INDEX"), (Hv "DOC_TAG"),
    (Hv "PUB_INTVL"), (Hv "GPIO_PIN"); [reflexivity|..];
    cbn; auto 10.
Qed.

Lemma get_config_reads_six_witness :
  (forall v, In v required ->
             environ_get (<["PUB_INTVL" := ""]> (<["TZ" := "UTC"]> garage_environ)) v ""
             = environ_get no_interval_environ v "") /\
  get_config (<["PUB_INTVL" := ""]> (<["TZ" := "UTC"]> garage_environ))
  = get_config no_interval_environ.
Proof.
  assert (Hv : forall v, In v required ->
             environ_get (<["PUB_INTVL" := ""]> (<["TZ" := "UTC"]> garage_environ)) v ""
             = environ_get no_interval_environ v "").
  { intros v Hin. repeat (destruct Hin as [<-|Hin]; [reflexivity|]). destruct Hin. }
  split; [exact Hv|]. exact (get_config_reads_six _ _ Hv).
Defined.

(** ** The process *)

(** X5: the process never ends with status 0: whenever [main] is over, by
    [sys.exit] or by an exception, the exit status is 1. *)
Theorem exit_status_is_1 `{Builtins} environ tr o code :
  exec (main environ) tr o -> exit_status o = Some code -> code = 1.
Proof.
  intros Hx Hs.
  apply main_inv in Hx
    as [[-> _]|[(x & -> & _)|[(tr1 & _ & Hc)|(tr1 & config & tr2 & _ & _ & Hr)]]].
  - discriminate Hs.
  - injection Hs as <-. reflexivity.
  - destruct Hc as [[_ ->]|[_ ->]]; [injection Hs as <-; reflexivity|discriminate Hs].
  - destruct o as [r|x|]; [|injection Hs as <-; reflexivity|discriminate Hs].
    destruct (run_never_returns _ _ _ Hr).
Qed.

Lemma exit_status_is_1_witness :
  exec (main no_interval_environ)
       [ELog ERROR "invalid value for PUB_INTVL: {}" [VStr ""];
        ELog ERROR "failed to get config" []]
       (Returned 1) /\
  exit_status (Returned 1) = Some 1 /\ 1 = 1.
Proof.
  pose proof (main_after_failure _ _ no_interval_get_config) as Hx.
  split; [exact Hx|]. split; [reflexivity|].
  exact (exit_status_is_1 no_interval_environ _ _ 1 Hx eq_refl).
Defined.

(** X6: on an environment that holds a configuration, [main] is [run] on
    that configuration: nothing is logged before "starting". *)
Theorem main_runs_the_configuration `{Builtins} environ config tr o :
  configures environ config ->
  exec (main environ) tr o <-> exec (run config) tr o.
Proof.
  intros Hc. unfold main. rewrite (get_config_configured _ _ Hc).
  split; apply exec_observe; reflexivity.
Qed.

Lemma main_runs_the_configuration_witness :
  configures garage_environ garage_config /\
  exec (main garage_environ) garage_run Running.
Proof.
  split; [exact garage_configures|].
  exact (proj2 (main_runs_the_configuration garage_environ garage_config
                  garage_run Running garage_configures)
           garage_run_exec).
Defined.

(** ** [publish_data] and the document *)

Lemma created_spec (answer : gmap string pyval) :
  not_created answer = false <-> answer !! "result" = Some (VStr "created").
Proof.
  unfold not_created.
  destruct (answer !! "result") as [[| | |s| |]|]; cbn;
    try (split; discriminate).
  destruct (String.eqb_spec s "created") as [->|Hs]; cbn.
  - split; reflexivity.
  - split; [discriminate|]. intros [= E]. contradiction.
Qed.

(** X7: [publish_data] makes one [index] call, with the document type
    "sensor_data" and [dict()] of the reading; it returns 0 and logs
    nothing exactly when the answer holds the string "created" under
    "result", and otherwise (another value, no string, no such key)
    logs the answer as an error and returns 1. *)
Theorem publish_data_code `{Builtins} es doc_index sensor_data tr r :
  exec (publish_data es doc_index sensor_data) tr (Returned r) <->
  exists answer,
    (answer !! "result" = Some (VStr "created") /\
     r = 0 /\
     tr = [EIndex es doc_index "sensor_data" (dict sensor_data) answer]) \/
    (answer !! "result" <> Some (VStr "created") /\
     r = 1 /\
     tr = [EIndex es doc_index "sensor_data" (dict sensor_data) answer;
           ELog ERROR "publishing error: result: {}" [VDict answer]]).
Proof.
  split.
  - intros Hx. apply exec_publish_data in Hx as (answer & Hx).
    apply cut_of_returned in Hx as [-> [= <-]].
    exists answer. unfold publish_events, publish_result.
    destruct (not_created answer) eqn:Hn.
    + right. apply not_created_spec in Hn. auto.
    + left. apply created_spec in Hn. auto.
  - intros (answer & [(Hc & -> & ->)|(Hn & -> & ->)]).
    + apply created_spec in Hc as Hf.
      pose proof (exec_publish_data_full es doc_index sensor_data answer) as Hx.
      unfold publish_events, publish_result in Hx. rewrite Hf in Hx. exact Hx.
    + apply not_created_spec in Hn.
      pose proof (exec_publish_data_full es doc_index sensor_data answer) as Hx.
      unfold publish_events, publish_result in Hx. rewrite Hn in Hx. exact Hx.
Qed.

Lemma publish_data_code_witness :
  exec (publish_data garage_es "climate" (reading_of garage_config humid warm noon))
       [EIndex garage_es "climate" "sensor_data"
               (dict (reading_of garage_config humid warm noon)) refused_answer;
        ELog ERROR "publishing error: result: {}" [VDict refused_answer]]
       (Returned 1).
Proof.
  apply (proj2 (publish_data_code garage_es "climate"
                  (reading_of garage_config humid warm noon) _ 1)).
  exists refused_answer. right. split; [discriminate|]. split; reflexivity.
Defined.

(** X8: the document of a reading has the four keys hum_rh, temp_c,
    timestamp and location and no other, and holds the whole reading: two
    readings with the same document are the same reading. *)
Theorem dict_keeps_the_reading (r1 r2 : SensorReading) :
  dom (dict r1) = ({["hum_rh"; "temp_c"; "timestamp"; "location"]} : gset string) /\
  (dict r1 = dict r2 -> r1 = r2).
Proof.
  split.
  - unfold dict. rewrite !dom_insert_L, dom_empty_L. set_solver.
  - intros E.
    assert (Hh : dict r1 !! "hum_rh" = dict r2 !! "hum_rh") by (rewrite E; reflexivity).
    assert (Ht : dict r1 !! "temp_c" = dict r2 !! "temp_c") by (rewrite E; reflexivity).
    assert (Hs : dict r1 !! "timestamp" = dict r2 !! "timestamp")
      by (rewrite E; reflexivity).
    assert (Hl : dict r1 !! "location" = dict r2 !! "location")
      by (rewrite E; reflexivity).
    unfold dict in Hh, Ht, Hs, Hl. simplify_map_eq.
    destruct r1 as [h1 t1 [d1|] l1], r2 as [h2 t2 [d2|] l2]; cbn in *;
      simplify_eq; reflexivity.
Qed.

Lemma dict_keeps_the_reading_witness :
  dict (reading_of garage_config humid warm noon)
  = dict (reading_of garage_config humid warm noon) /\
  reading_of garage_config humid warm noon = reading_of garage_config humid warm noon.
Proof.
  split; [reflexivity|].
  exact (proj2 (dict_keeps_the_reading _ _) eq_refl).
Defined.

(** ** [read_sensor] *)

(** X9: a failed read returns (1, 0, 0, now): whatever the driver gave of
    the two values is dropped, the failure is logged as an error, and the
    clock is still read. *)
Theorem read_sensor_failure_tuple `{Builtins} sensor gpio_pin tr rc hum temp ts :
  exec (read_sensor sensor gpio_pin) tr (Returned (rc, hum, temp, ts)) ->
  rc <> 0 ->
  rc = 1 /\ hum = Int 0 /\ temp = Int 0 /\
  exists reply,
    (reply.1 = None \/ reply.2 = None) /\
    tr = [ELog DEBUG "reading sensor" []; ERead sensor gpio_pin reply;
          ELog ERROR "failed to read from the sensor" []; ENow ts].
Proof.
  intros Hx Hrc.
  apply exec_read_sensor in Hx as (reply & now & Hx).
  apply cut_of_returned in Hx as [-> Hx]. injection Hx as Hx.
  unfold read_sensor_events.
  destruct reply as [[h|] [t|]]; cbn in Hx; injection Hx as <- <- <- <-;
    try contradiction; repeat split; eexists (_, _); split; try reflexivity;
    cbn; auto.
Qed.

Lemma read_sensor_failure_tuple_witness :
  exec (read_sensor 22 4) (read_sensor_events 22 4 half_reply noon)
       (Returned (1, Int 0, Int 0, noon)) /\
  1 <> 0 /\
  1 = 1 /\ Int 0 = Int 0 /\ Int 0 = Int 0 /\
  exists reply,
    (reply.1 = None \/ reply.2 = None) /\
    read_sensor_events 22 4 half_reply noon
    = [ELog DEBUG "reading sensor" []; ERead 22 4 reply;
       ELog ERROR "failed to read from the sensor" []; ENow noon].
Proof.
  pose proof (exec_read_sensor_full 22 4 half_reply noon) as Hx.
  assert (Hne : 1 <> 0) by discriminate.
  split; [exact Hx|]. split; [exact Hne|].
  exact (read_sensor_failure_tuple 22 4 _ 1 (Int 0) (Int 0) noon Hx Hne).
Defined.

(** ** [run] *)

(** X10: with an interval that [time.sleep] refuses, [run] never gets
    past its first sleep: every run stays within the starting log and the
    index creation, so the sensor is never read and nothing is sent; once
    the index creation has answered, all that is left to [run] is the
    exception of the sleep, [OverflowError] for a length beyond the clock
    type on either side, [ValueError] for another negative one, and
    [OSError] for one the platform does not take; and with a host string
    the client takes, that is a run. *)
Theorem run_with_refused_interval `{Builtins} config :
  pub_intvl config < 0 \/ sleep_max < pub_intvl config ->
  (forall tr o,
      exec (run config) tr o ->
      tr `prefix_of` run_prelude config /\
      (tr = run_prelude config ->
       o = Running \/
       o = Raised (if (pub_intvl config <? - time_max)
                      || (time_max <? pub_intvl config)
                   then OverflowError
                   else if pub_intvl config <? 0 then ValueError
                   else OSError))) /\
  (client_error (hosts (connect config)) = None ->
   exec (run config) (run_prelude config)
        (Raised (if (pub_intvl config <? - time_max)
                    || (time_max <? pub_intvl config)
                 then OverflowError
                 else if pub_intvl config <? 0 then ValueError
                 else OSError))).
Proof.
  intros Hi.
  assert (Ha : sleep_accepts (pub_intvl config) = false).
  { unfold sleep_accepts. apply andb_false_iff.
    destruct Hi; [left|right]; apply Z.leb_gt; lia. }
  change (if (pub_intvl config <? - time_max) || (time_max <? pub_intvl config)
          then OverflowError
          else if pub_intvl config <? 0 then ValueError else OSError)
    with (sleep_error (pub_intvl config)).
  split.
  - intros tr o Hx.
    apply exec_run_inv in Hx as [[Hp Ho]|(tr' & -> & Hl & _)].
    + split; [exact Hp|]. intros ->.
      destruct Ho as [?|(x & _ & [=] & _)]. auto.
    + apply (exec_loop_rejected _ _ _ _ Ha) in Hl as [-> Ho].
      rewrite app_nil_r. split; [reflexivity|]. intros _. exact Ho.
  - intros Hc. apply (exec_run _ _ _ Hc). right. exists [].
    split; [rewrite app_nil_r; reflexivity|].
    apply loop_raise, (exec_iteration_rejected _ _ _ _ Ha). left. auto.
Qed.

Lemma run_with_refused_interval_witness :
  (pub_intvl hasty_config < 0 \/ sleep_max < pub_intvl hasty_config) /\
  exec (run hasty_config) (run_prelude hasty_config) (Raised ValueError).
Proof.
  assert (Hi : pub_intvl hasty_config < 0 \/ sleep_max < pub_intvl hasty_config)
    by (left; reflexivity).
  split; [exact Hi|].
  exact (proj2 (run_with_refused_interval hasty_config Hi) eq_refl).
Defined.

(** X11: the calls of every run of [run] are the starting log and the
    index creation followed by whole passes, one for each triple of
    answers of the sensor, the clock and the store, cut at some point. *)
Theorem runs_are_passes `{Builtins} config tr o :
  exec (run config) tr o ->
  exists inputs,
    tr `prefix_of` run_prelude config ++ passes config (connect config) inputs.
Proof.
  intros Hx.
  apply exec_run_inv in Hx as [[Hp _]|(tr' & -> & Hl & _)].
  - exists []. apply prefix_app_r, Hp.
  - destruct (sleep_accepts (pub_intvl config)) eqn:Ha.
    + destruct (exec_loop_passes _ _ _ _ Ha Hl) as (inputs & Hp).
      exists inputs. apply prefix_app, Hp.
    + apply (exec_loop_rejected _ _ _ _ Ha) in Hl as [-> _].
      exists []. reflexivity.
Qed.

Lemma runs_are_passes_witness :
  exec (run garage_config) garage_run Running /\
  exists inputs,
    garage_run `prefix_of`
      run_prelude garage_config ++ passes garage_config (connect garage_config) inputs.
Proof.
  split; [exact garage_run_exec|].
  exact (runs_are_passes garage_config garage_run Running garage_run_exec).
Defined.

(** X15: with a host string the client takes and an interval
    [time.sleep] takes, [run] serves every sequence of answers of the
    sensor, the clock and the store: the starting log, the index creation
    and the passes that get these answers, cut at any point, are the
    calls of a run that is under way. *)
Theorem run_serves_every_answer `{Builtins} config inputs tr :
  client_error (hosts (connect config)) = None ->
  0 <= pub_intvl config <= sleep_max ->
  tr `prefix_of` run_prelude config ++ passes config (connect config) inputs ->
  exec (run config) tr Running.
Proof.
  intros Hc Hi Hp. apply sleep_accepts_spec in Hi as Ha.
  eapply exec_prefix; [|exact Hp].
  apply (exec_run _ _ _ Hc). right. eexists. split; [reflexivity|].
  apply exec_loop_passes_full, Ha.
Qed.

Lemma run_serves_every_answer_witness :
  client_error (hosts (connect garage_config)) = None /\
  0 <= pub_intvl garage_config <= sleep_max /\
  exec (run garage_config)
       (run_prelude garage_config
        ++ passes garage_config (connect garage_config)
             [((Some humid, None), noon, ∅);
              ((Some humid, Some warm), noon, refused_answer)])
       Running.
Proof.
  assert (Hc : client_error (hosts (connect garage_config)) = None)
    by reflexivity.
  assert (Hi : 0 <= pub_intvl garage_config <= sleep_max)
    by (vm_compute; split; discriminate).
  split; [exact Hc|]. split; [exact Hi|].
  apply (run_serves_every_answer garage_config
           [((Some humid, None), noon, ∅);
            ((Some humid, Some warm), noon, refused_answer)] _ Hc Hi).
  reflexivity.
Defined.

Lemma count_app f tr1 tr2 : count f (tr1 ++ tr2) = (count f tr1 + count f tr2)%nat.
Proof. unfold count. rewrite List.filter_app, length_app. reflexivity. Qed.

Lemma pass_counts config es reply now answer :
  count is_sleep (pass_events config es reply now answer) = 1%nat /\
  count is_read (pass_events config es reply now answer) = 1%nat /\
  count is_good_read (pass_events config es reply now answer)
  = count is_index (pass_events config es reply now answer).
Proof.
  unfold pass_events, read_sensor_events, pass_tail, publish_events.
  destruct reply as [[h|] [t|]]; try destruct (not_created answer);
    repeat split; reflexivity.
Qed.

Lemma pass_prefix_counts config es reply now answer tr :
  tr `prefix_of` pass_events config es reply now answer ->
  (count is_index tr <= count is_good_read tr <= count is_index tr + 1)%nat /\
  (count is_read tr <= count is_sleep tr <= count is_read tr + 1)%nat.
Proof.
  unfold pass_events, read_sensor_events, pass_tail, publish_events.
  destruct reply as [[h|] [t|]]; try destruct (not_created answer);
    cbn; intros [k E];
    repeat (destruct tr as [|ev tr]; [unfold count; cbn; lia|];
            cbn in E; injection E as <- E);
    (destruct tr; [unfold count; cbn; lia|discriminate E]).
Qed.

(** X12: in every run of [run], the documents sent are as many as the
    successful reads, or one fewer while a pass is between its read and
    its publish; the reads are as many as the sleeps, or one fewer while
    a pass is between its sleep and its read.  No reading is sent twice
    and none is read without a sleep before it. *)
Theorem run_counts `{Builtins} config tr o :
  exec (run config) tr o ->
  (count is_index tr <= count is_good_read tr <= count is_index tr + 1)%nat /\
  (count is_read tr <= count is_sleep tr <= count is_read tr + 1)%nat.
Proof.
  intros Hx. apply exec_run_inv in Hx as [[Hp _]|(tr' & -> & Hl & _)].
  - destruct Hp as [k E]. unfold run_prelude in E.
    repeat (destruct tr as [|ev tr]; [unfold count; cbn; lia|];
            cbn in E; injection E as <- E);
    (destruct tr; [unfold count; cbn; lia|discriminate E]).
  - rewrite !count_app.
    change (count is_index (run_prelude config)) with 0%nat.
    change (count is_good_read (run_prelude config)) with 0%nat.
    change (count is_read (run_prelude config)) with 0%nat.
    change (count is_sleep (run_prelude config)) with 0%nat.
    cbn [Nat.add].
    destruct (sleep_accepts (pub_intvl config)) eqn:Ha.
    + induction Hl as [tr Hb|tr x Hb|tr1 r tr2 o Hb Hl IH];
        apply (exec_iteration _ _ _ _ Ha) in Hb as (reply & now & answer & Hb).
      * eapply pass_prefix_counts, cut_of_prefix, Hb.
      * apply cut_of_raised in Hb as [_ Hb]. discriminate Hb.
      * apply cut_of_returned in Hb as [-> _]. rewrite !count_app.
        destruct (pass_counts config (connect config) reply now answer)
          as (-> & -> & ->).
        lia.
    + induction Hl as [tr Hb|tr x Hb|tr1 r tr2 o Hb Hl IH];
        apply (exec_iteration_rejected _ _ _ _ Ha) in Hb.
      * apply cut_of_prefix, prefix_nil_inv in Hb as ->. unfold count. cbn. lia.
      * apply cut_of_raised in Hb as [-> _]. unfold count. cbn. lia.
      * apply cut_of_returned in Hb as [_ Hb]. discriminate Hb.
Qed.

Lemma run_counts_witness :
  exec (run garage_config) garage_run Running /\
  (count is_index garage_run <= count is_good_read garage_run
   <= count is_index garage_run + 1)%nat /\
  (count is_read garage_run <= count is_sleep garage_run
   <= count is_read garage_run + 1)%nat.
Proof.
  split; [exact garage_run_exec|].
  exact (run_counts garage_config garage_run Running garage_run_exec).
Defined.

Lemma pass_honours config reply now answer ev :
  In ev (pass_events config (connect config) reply now answer) ->
  honours config ev.
Proof.
  unfold pass_events, read_sensor_events, pass_tail, publish_events.
  intros Hin.
  destruct reply as [[h|] [t|]]; try destruct (not_created answer);
    cbn in Hin; decompose [or False] Hin; subst; cbn; auto.
Qed.

(** X13: every call of a run of [run] uses what the configuration says:
    each sleep lasts [pub_intvl], each read names [sensor] and
    [gpio_pin], the index is created with [ignore=400], and index
    creation and documents go to [es_index] at [es_host:es_port],
    documents with the type "sensor_data". *)
Theorem run_honours_configuration `{Builtins} config tr o ev :
  exec (run config) tr o -> In ev tr -> honours config ev.
Proof.
  intros Hx Hin. apply exec_run_inv in Hx as [[Hp _]|(tr' & -> & Hl & _)].
  - apply (In_prefix _ _ _ Hp) in Hin.
    cbn in Hin. decompose [or False] Hin; subst; cbn; auto.
  - apply in_app_or in Hin as [Hin|Hin].
    { cbn in Hin. decompose [or False] Hin; subst; cbn; auto. }
    destruct (sleep_accepts (pub_intvl config)) eqn:Ha.
    + induction Hl as [tr Hb|tr x Hb|tr1 r tr2 o Hb Hl IH];
        apply (exec_iteration _ _ _ _ Ha) in Hb as (reply & now & answer & Hb).
      * eapply pass_honours, In_prefix, Hin. eapply cut_of_prefix, Hb.
      * apply cut_of_raised in Hb as [_ Hb]. discriminate Hb.
      * apply cut_of_returned in Hb as [-> _].
        apply in_app_or in Hin as [Hin|Hin]; [eapply pass_honours, Hin|auto].
    + induction Hl as [tr Hb|tr x Hb|tr1 r tr2 o Hb Hl IH];
        apply (exec_iteration_rejected _ _ _ _ Ha) in Hb.
      * apply cut_of_prefix, prefix_nil_inv in Hb as ->. destruct Hin.
      * apply cut_of_raised in Hb as [-> _]. destruct Hin.
      * apply cut_of_returned in Hb as [_ Hb]. discriminate Hb.
Qed.

Lemma run_honours_configuration_witness :
  exec (run garage_config) garage_run Running /\
  In (ERead 22 4 (Some humid, Some warm)) garage_run /\
  honours garage_config (ERead 22 4 (Some humid, Some warm)).
Proof.
  assert (Hin : In (ERead 22 4 (Some humid, Some warm)) garage_run)
    by (do 4 right; left; reflexivity).
  split; [exact garage_run_exec|]. split; [exact Hin|].
  exact (run_honours_configuration garage_config garage_run Running _
           garage_run_exec Hin).
Defined.

(** X14: what a finished pass of the loop logs at ERROR tells how it
    went.  A pass whose read failed logs two errors (one by
    [read_sensor], one by [run]) and sends nothing; a pass that read
    sends one document with the reading, and logs one error when the
    store's answer is not "created", none when it is. *)
Theorem pass_error_logs `{Builtins} config es tr r :
  0 <= pub_intvl config <= sleep_max ->
  exec (iteration config es) tr (Returned r) ->
  match r with
  | None => count is_error tr = 2%nat /\ count is_index tr = 0%nat
  | Some reading =>
      exists answer,
        In (EIndex es (es_index config) "sensor_data" (dict reading) answer) tr /\
        count is_index tr = 1%nat /\
        count is_error tr = if not_created answer then 1%nat else 0%nat
  end.
Proof.
  intros Hi Hx.
  assert (Ha : sleep_accepts (pub_intvl config) = true).
  { unfold sleep_accepts. apply andb_true_iff. split; apply Z.leb_le; lia. }
  apply (exec_iteration _ _ _ _ Ha) in Hx as (reply & now & answer & Hx).
  apply cut_of_returned in Hx as [-> [= <-]].
  unfold pass_events, read_sensor_events, pass_tail, pass_result, publish_events.
  destruct reply as [[h|] [t|]]; try (split; reflexivity).
  exists answer. split; [do 5 right; left; reflexivity|].
  destruct (not_created answer); split; reflexivity.
Qed.

Lemma pass_error_logs_witness :
  0 <= pub_intvl garage_config <= sleep_max /\
  exec (iteration garage_config garage_es) failed_pass (Returned None) /\
  count is_error failed_pass = 2%nat /\ count is_index failed_pass = 0%nat.
Proof.
  assert (Hi : 0 <= pub_intvl garage_config <= sleep_max) by (split; discriminate).
  assert (Hx : exec (iteration garage_config garage_es) failed_pass (Returned None)).
  { apply (exec_iteration_full garage_config garage_es (None, None) noon ∅).
    reflexivity. }
  split; [exact Hi|]. split; [exact Hx|].
  exact (pass_error_logs garage_config garage_es failed_pass None Hi Hx).
Defined.

(** X16: where the client's constructor refuses the host string, [run]
    logs "starting" and dies of the constructor's exception: the index is
    not created, the sensor is not read and nothing is sent.
    [get_config] lets such a configuration through: it checks no range,
    and the client refuses the port -1. *)
Theorem run_with_refused_host `{Builtins} config x tr o :
  client_error (hosts (connect config)) = Some x ->
  exec (run config) tr o <->
  (tr `prefix_of` [ELog INFO "starting" []] /\ o = Running) \/
  (tr = [ELog INFO "starting" []] /\ o = Raised x).
Proof.
  intros Hc. rewrite (exec_run_refused _ _ _ _ Hc). unfold cut_of. tauto.
Qed.

Lemma run_with_refused_host_witness :
  exec (get_config portless_environ) [] (Returned (0, Some portless_config)) /\
  client_error (hosts (connect portless_config)) = Some ValueError /\
  exec (run portless_config) [ELog INFO "starting" []] (Raised ValueError).
Proof.
  assert (Hc : client_error (hosts (connect portless_config)) = Some ValueError)
    by reflexivity.
  split; [apply exec_ret; reflexivity|]. split; [exact Hc|].
  apply (run_with_refused_host portless_config ValueError _ _ Hc).
  right. split; reflexivity.
Defined.
